(** * Micro32 memory manager: the boot-time RAM region negotiator

    A shallow embedding of [memory_manager.h] / [memory_manager.cpp]
    (namespace [MemoryManager]) and the properties of its three entry
    points [set_ram_bounds], [reserve_all_except_first_8kb] and
    [get_reserved_region], followed by the LCD driver and the kernel
    entry point that surround it.

    The target is the 32-bit RISC-V Micro32 machine: [uintptr_t],
    [std::size_t] and [uint32_t] are 32-bit unsigned integers.  They are
    modelled as [Z] with the wrap-around modulo [2^32] written out.  The
    file-scope variables of the manager are objects of the memory its
    zeroing loop writes: a layout gives their addresses, and the loop
    clears whatever it runs over, the variables included. *)

From Stdlib Require Import ZArith Lia Bool List.
From Stdlib Require Ascii String.
Import ListNotations.
Import Ascii.AsciiSyntax String.StringSyntax.

Local Open Scope Z_scope.
Delimit Scope string_scope with string.
Delimit Scope char_scope with char.

(** ** 32-bit unsigned machine words *)

Module Word.

Definition width : Z := 32.
Definition modulus : Z := 2 ^ width.

(** Reduction of an exact integer to its [uintptr_t] value. *)
Definition wrap (x : Z) : Z := x mod modulus.

(** The values a [uintptr_t] / [std::size_t] variable can hold. *)
Definition in_range (x : Z) : Prop := 0 <= x < modulus.

(** [a + b], [a - b], [~a] and [a & b] on [uintptr_t]. *)
Definition add (a b : Z) : Z := wrap (a + b).
Definition sub (a b : Z) : Z := wrap (a - b).
Definition not (a : Z) : Z := wrap (Z.lnot a).
Definition and (a b : Z) : Z := Z.land a b.

End Word.

(** ** Byte-addressed memory

    The zeroing loop stores through a [volatile uint32_t*]; memory is a
    map from addresses to bytes, and a 32-bit store writes the four bytes
    of the word (little endian, as on RISC-V). *)

Definition Mem : Type := Z -> Z.

Definition store8 (m : Mem) (a v : Z) : Mem :=
  fun x => if x =? a then v mod 256 else m x.

Definition store32 (m : Mem) (p v : Z) : Mem :=
  store8
    (store8
       (store8
          (store8 m p v)
          (Word.add p 1) (Z.shiftr v 8))
       (Word.add p 2) (Z.shiftr v 16))
    (Word.add p 3) (Z.shiftr v 24).

Definition load32 (m : Mem) (p : Z) : Z :=
  Z.lor (m p)
    (Z.lor (Z.shiftl (m (Word.add p 1)) 8)
       (Z.lor (Z.shiftl (m (Word.add p 2)) 16)
              (Z.shiftl (m (Word.add p 3)) 24))).

(** A memory full of stale bytes, for examples. *)
Definition stale_mem : Mem := fun _ => 0xAA.

(** ** The memory manager *)

Module MemoryManager.

(** [struct Region { uintptr_t start; uintptr_t end; }], the half-open
    interval [[start, end)]. *)
Record Region : Type := mkRegion { start : Z; end_ : Z }.

(** Constants of [memory_manager.h]. *)
Definition DEFAULT_RAM_BASE : Z := 0x3F800000.
Definition DEFAULT_RAM_SIZE : Z := 32 * 1024 * 1024.
Definition RESERVED_PREFIX : Z := 8 * 1024.

(** [constexpr uintptr_t ALIGN = 4;] of [reserve_all_except_first_8kb]. *)
Definition ALIGN : Z := 4.

(** The file-scope variables of [memory_manager.cpp], by value. *)
Record State : Type := mkState {
  s_ram_base : Z;
  s_ram_size : Z;
  s_reserved_region : Region;
  s_reserved : bool;
  s_explicit_bounds_set : bool
}.

(** Their static initialisers. *)
Definition initial_state : State :=
  {| s_ram_base := DEFAULT_RAM_BASE;
     s_ram_size := DEFAULT_RAM_SIZE;
     s_reserved_region := {| start := 0; end_ := 0 |};
     s_reserved := false;
     s_explicit_bounds_set := false |}.

(** *** The variables as objects in memory

    The variables are objects of the same memory the zeroing loop writes:
    the linker gives each an address, and a store through a pointer that
    lands on bytes of a variable changes that variable.  [Layout] holds
    the addresses ([s_reserved_region.start] at
    [addr_s_reserved_region], [.end] four bytes on; the two [bool]s take
    one byte each).  The machine's memory is then a [State] for the bytes
    of the variables and a [Mem] for every other byte ([machine_mem]
    below puts the two together). *)
Record Layout : Type := mkLayout {
  addr_s_ram_base : Z;
  addr_s_ram_size : Z;
  addr_s_reserved_region : Z;
  addr_s_reserved : Z;
  addr_s_explicit_bounds_set : Z
}.

(** A layout for examples: the variables in a row from [0x804B000]. *)
Definition example_layout : Layout :=
  {| addr_s_ram_base := 0x804B000;
     addr_s_ram_size := 0x804B004;
     addr_s_reserved_region := 0x804B008;
     addr_s_reserved := 0x804B010;
     addr_s_explicit_bounds_set := 0x804B011 |}.

(** The byte a 32-bit store of [w] at [p] leaves at address [x], if it
    writes there (the four bytes of [store32], little endian). *)
Definition written_byte (p w x : Z) : option Z :=
  if x =? Word.add p 3 then Some (Z.shiftr w 24 mod 256)
  else if x =? Word.add p 2 then Some (Z.shiftr w 16 mod 256)
  else if x =? Word.add p 1 then Some (Z.shiftr w 8 mod 256)
  else if x =? p then Some (w mod 256)
  else None.

(** Byte [j] of a 32-bit value. *)
Definition byte_of (v j : Z) : Z := Z.shiftr v (8 * j) mod 256.

Definition byte_or (b : option Z) (v j : Z) : Z :=
  match b with
  | Some x => x
  | None => byte_of v j
  end.

(** A 32-bit object at address [a] holding [v], after the store of [w]
    at [p]: the bytes the store hits are replaced. *)
Definition poke_word (a v p w : Z) : Z :=
  match written_byte p w a, written_byte p w (a + 1),
        written_byte p w (a + 2), written_byte p w (a + 3) with
  | None, None, None, None => v
  | b0, b1, b2, b3 =>
      byte_or b0 v 0 + 2 ^ 8 * byte_or b1 v 1
      + 2 ^ 16 * byte_or b2 v 2 + 2 ^ 24 * byte_or b3 v 3
  end.

(** A [bool] at address [a] holding [b], after the same store. *)
Definition poke_bool (a : Z) (b : bool) (p w : Z) : bool :=
  match written_byte p w a with
  | Some x => negb (x =? 0)
  | None => b
  end.

(** The variables after [*(volatile uint32_t* )p = w]. *)
Definition poke_statics (L : Layout) (st : State) (p w : Z) : State :=
  {| s_ram_base := poke_word (addr_s_ram_base L) (s_ram_base st) p w;
     s_ram_size := poke_word (addr_s_ram_size L) (s_ram_size st) p w;
     s_reserved_region :=
       {| start := poke_word (addr_s_reserved_region L)
                     (start (s_reserved_region st)) p w;
          end_ := poke_word (addr_s_reserved_region L + 4)
                    (end_ (s_reserved_region st)) p w |};
     s_reserved := poke_bool (addr_s_reserved L) (s_reserved st) p w;
     s_explicit_bounds_set :=
       poke_bool (addr_s_explicit_bounds_set L)
         (s_explicit_bounds_set st) p w |}.

(** The byte of a variable at address [x], if [x] lies in one. *)
Definition static_byte (L : Layout) (st : State) (x : Z) : option Z :=
  if (addr_s_ram_base L <=? x) && (x <? addr_s_ram_base L + 4) then
    Some (byte_of (s_ram_base st) (x - addr_s_ram_base L))
  else if (addr_s_ram_size L <=? x) && (x <? addr_s_ram_size L + 4) then
    Some (byte_of (s_ram_size st) (x - addr_s_ram_size L))
  else if (addr_s_reserved_region L <=? x)
          && (x <? addr_s_reserved_region L + 4) then
    Some (byte_of (start (s_reserved_region st))
            (x - addr_s_reserved_region L))
  else if (addr_s_reserved_region L + 4 <=? x)
          && (x <? addr_s_reserved_region L + 8) then
    Some (byte_of (end_ (s_reserved_region st))
            (x - (addr_s_reserved_region L + 4)))
  else if x =? addr_s_reserved L then
    Some (if s_reserved st then 1 else 0)
  else if x =? addr_s_explicit_bounds_set L then
    Some (if s_explicit_bounds_set st then 1 else 0)
  else None.

(** The memory as the machine reads it. *)
Definition machine_mem (L : Layout) (st : State) (m : Mem) : Mem :=
  fun x =>
    match static_byte L st x with
    | Some b => b
    | None => m x
    end.

(** The bytes [reserve_all_except_first_8kb] itself stores to when it
    commits: [s_reserved_region] and [s_reserved]. *)
Definition commit_byte (L : Layout) (x : Z) : bool :=
  ((addr_s_reserved_region L <=? x) && (x <? addr_s_reserved_region L + 8))
  || (x =? addr_s_reserved L).

(** *** The functions *)

(** The weak linker symbol [__ram_end]: [None] when the linker does not
    provide it, [Some a] when it resolves to address [a]. *)
Definition Marker : Type := option Z.

Definition marker_ok (ram_end_sym : Marker) : Prop :=
  match ram_end_sym with
  | None => True
  | Some a => Word.in_range a
  end.

Definition compute_ram_end_from_linker (ram_end_sym : Marker) : Z :=
  match ram_end_sym with
  | None => 0
  | Some addr => if addr =? 0 then 0 else addr
  end.

Definition set_ram_bounds (ram_base ram_size : Z) (st : State) : State :=
  {| s_ram_base := ram_base;
     s_ram_size := ram_size;
     s_reserved_region := s_reserved_region st;
     s_reserved := s_reserved st;
     s_explicit_bounds_set := true |}.

(** [while (p < p_end) { *p++ = 0u; }] on [volatile uint32_t*]: one
    unit of fuel per iteration, [None] when the fuel runs out.  Each
    store writes the memory and whatever variable lies under it. *)
Fixpoint zero_loop (L : Layout) (fuel : nat) (p p_end : Z)
    (st : State) (m : Mem) : option (State * Mem) :=
  if p <? p_end then
    match fuel with
    | O => None
    | S fuel' =>
        zero_loop L fuel' (Word.add p 4) p_end
          (poke_statics L st p 0) (store32 m p 0)
    end
  else Some (st, m).

(** [reserve_all_except_first_8kb]: the result is the returned boolean
    with the variables and the memory after the call; [None] only when
    the zeroing loop is cut off by the fuel.  The locals ([ram_base],
    [ram_size], [usable_start], [usable_end], [p], [p_end]) are read once
    and not looked up again. *)
Definition reserve_all_except_first_8kb
    (L : Layout) (fuel : nat) (ram_end_sym : Marker) (zero_memory : bool)
    (st : State) (m : Mem) : option (bool * State * Mem) :=
  if s_reserved st then Some (true, st, m) else
  let ram_base := s_ram_base st in
  let ram_size := s_ram_size st in
  let '(ram_base, ram_size) :=
    if negb (s_explicit_bounds_set st) then
      let linker_ram_end := compute_ram_end_from_linker ram_end_sym in
      if negb (linker_ram_end =? 0) && (ram_base <? linker_ram_end) then
        (ram_base, Word.sub linker_ram_end ram_base)
      else
        (s_ram_base st, s_ram_size st)
    else (ram_base, ram_size) in
  if ram_size <=? RESERVED_PREFIX then Some (false, st, m) else
  let usable_start := Word.add ram_base RESERVED_PREFIX in
  let usable_end := Word.add ram_base ram_size in
  let usable_start :=
    if negb (usable_start mod ALIGN =? 0) then
      Word.and (Word.add usable_start (ALIGN - 1)) (Word.not (ALIGN - 1))
    else usable_start in
  let usable_end :=
    if negb (usable_end mod ALIGN =? 0) then
      Word.and usable_end (Word.not (ALIGN - 1))
    else usable_end in
  if usable_end <=? usable_start then Some (false, st, m) else
  let st1 :=
    {| s_ram_base := s_ram_base st;
       s_ram_size := s_ram_size st;
       s_reserved_region := {| start := usable_start; end_ := usable_end |};
       s_reserved := s_reserved st;
       s_explicit_bounds_set := s_explicit_bounds_set st |} in
  match (if zero_memory then zero_loop L fuel usable_start usable_end st1 m
         else Some (st1, m)) with
  | None => None
  | Some (st2, m') =>
      Some (true,
            {| s_ram_base := s_ram_base st2;
               s_ram_size := s_ram_size st2;
               s_reserved_region := s_reserved_region st2;
               s_reserved := true;
               s_explicit_bounds_set := s_explicit_bounds_set st2 |},
            m')
  end.

Definition get_reserved_region (st : State) : Region :=
  s_reserved_region st.

(** [get_usable_region] and [make_region], the inline helpers of
    [memory_manager.h]. *)
Definition get_usable_region (st : State) : Region :=
  get_reserved_region st.

Definition make_region (base size : Z) : Region :=
  {| start := base; end_ := Word.add base size |}.

(** Number of iterations the loop makes between word-aligned bounds
    (used to state how much fuel is enough). *)
Definition words_between (p p_end : Z) : nat :=
  Z.to_nat ((p_end - p) / 4).

(** *** The phases of [reserve_all_except_first_8kb]

    The same code, cut at the [// Sanity checks] comment and at
    [// Record the reserved/usable region], so that properties can name
    the intermediate values.  [reserve_phases] below shows the function
    is their composition. *)

(** Lines 70-85: the effective [ram_base] and [ram_size]. *)
Definition effective_bounds (ram_end_sym : Marker) (st : State) : Z * Z :=
  let ram_base := s_ram_base st in
  let ram_size := s_ram_size st in
  if negb (s_explicit_bounds_set st) then
    let linker_ram_end := compute_ram_end_from_linker ram_end_sym in
    if negb (linker_ram_end =? 0) && (ram_base <? linker_ram_end) then
      (ram_base, Word.sub linker_ram_end ram_base)
    else
      (s_ram_base st, s_ram_size st)
  else (ram_base, ram_size).

(** Lines 87-109: the aligned usable region, [None] where the function
    returns [false]. *)
Definition usable_region (ram_base ram_size : Z) : option Region :=
  if ram_size <=? RESERVED_PREFIX then None else
  let usable_start := Word.add ram_base RESERVED_PREFIX in
  let usable_end := Word.add ram_base ram_size in
  let usable_start :=
    if negb (usable_start mod ALIGN =? 0) then
      Word.and (Word.add usable_start (ALIGN - 1)) (Word.not (ALIGN - 1))
    else usable_start in
  let usable_end :=
    if negb (usable_end mod ALIGN =? 0) then
      Word.and usable_end (Word.not (ALIGN - 1))
    else usable_end in
  if usable_end <=? usable_start then None
  else Some {| start := usable_start; end_ := usable_end |}.

(** Lines 112-113: the variables once region [r] is recorded. *)
Definition record_region (st : State) (r : Region) : State :=
  {| s_ram_base := s_ram_base st;
     s_ram_size := s_ram_size st;
     s_reserved_region := r;
     s_reserved := s_reserved st;
     s_explicit_bounds_set := s_explicit_bounds_set st |}.

(** Line 125: [s_reserved = true]. *)
Definition mark_reserved (st : State) : State :=
  {| s_ram_base := s_ram_base st;
     s_ram_size := s_ram_size st;
     s_reserved_region := s_reserved_region st;
     s_reserved := true;
     s_explicit_bounds_set := s_explicit_bounds_set st |}.

(** Lines 111-126 when no store of the loop lands on a variable: region
    [r] recorded and [s_reserved] set. *)
Definition commit (st : State) (r : Region) : State :=
  {| s_ram_base := s_ram_base st;
     s_ram_size := s_ram_size st;
     s_reserved_region := r;
     s_reserved := true;
     s_explicit_bounds_set := s_explicit_bounds_set st |}.

(** Fuel that lets the zeroing loop of a call from state [st] finish. *)
Definition enough_fuel (ram_end_sym : Marker) (st : State) : nat :=
  match usable_region (fst (effective_bounds ram_end_sym st))
                      (snd (effective_bounds ram_end_sym st)) with
  | None => O
  | Some r => words_between (start r) (end_ r)
  end.

(** *** Regions and the variables *)

(** The object of [len] bytes at address [a] lies outside region [r]. *)
Definition outside (r : Region) (a len : Z) : bool :=
  (a + len <=? start r) || (end_ r <=? a).

(** Region [r] contains no byte of any of the five variables. *)
Definition region_avoids_statics (L : Layout) (r : Region) : bool :=
  outside r (addr_s_ram_base L) 4 &&
  outside r (addr_s_ram_size L) 4 &&
  outside r (addr_s_reserved_region L) 8 &&
  outside r (addr_s_reserved L) 1 &&
  outside r (addr_s_explicit_bounds_set L) 1.

(** The same of the interval [[lo, hi)], as a proposition. *)
Definition Avoids (L : Layout) (lo hi : Z) : Prop :=
  (addr_s_ram_base L + 4 <= lo \/ hi <= addr_s_ram_base L) /\
  (addr_s_ram_size L + 4 <= lo \/ hi <= addr_s_ram_size L) /\
  (addr_s_reserved_region L + 8 <= lo \/ hi <= addr_s_reserved_region L) /\
  (addr_s_reserved L + 1 <= lo \/ hi <= addr_s_reserved L) /\
  (addr_s_explicit_bounds_set L + 1 <= lo
   \/ hi <= addr_s_explicit_bounds_set L).

(** The region a call from state [st] would zero contains none of the
    variables (or the call computes no region). *)
Definition safe_to_zero (L : Layout) (ram_end_sym : Marker) (st : State)
  : bool :=
  match usable_region (fst (effective_bounds ram_end_sym st))
                      (snd (effective_bounds ram_end_sym st)) with
  | None => true
  | Some r => region_avoids_statics L r
  end.

(** *** Calls in sequence

    One call of the public interface, seen from the manager's state:
    [get_reserved_region] is a read and contributes no step. *)
Inductive Step (L : Layout) (ram_end_sym : Marker) : State -> State -> Prop :=
| step_set_ram_bounds : forall st ram_base ram_size,
    Word.in_range ram_base -> Word.in_range ram_size ->
    Step L ram_end_sym st (set_ram_bounds ram_base ram_size st)
| step_reserve : forall st fuel zero_memory m ret st' m',
    reserve_all_except_first_8kb L fuel ram_end_sym zero_memory st m
      = Some (ret, st', m') ->
    Step L ram_end_sym st st'.

Inductive Steps (L : Layout) (ram_end_sym : Marker) : State -> State -> Prop :=
| steps_refl : forall st, Steps L ram_end_sym st st
| steps_step : forall st st1 st2,
    Steps L ram_end_sym st st1 -> Step L ram_end_sym st1 st2 ->
    Steps L ram_end_sym st st2.

(** The states a program can observe between calls. *)
Definition Reachable (L : Layout) (ram_end_sym : Marker) (st : State) : Prop :=
  Steps L ram_end_sym initial_state st.

(** What holds of the state between calls as long as no reservation has
    committed: the stored bounds are 32-bit values and are the
    compile-time defaults until [set_ram_bounds] is called, and the
    region is [{0,0}]. *)
Definition state_inv (st : State) : Prop :=
  s_reserved st = false ->
  Word.in_range (s_ram_base st) /\
  Word.in_range (s_ram_size st) /\
  (s_explicit_bounds_set st = false ->
   s_ram_base st = DEFAULT_RAM_BASE /\ s_ram_size st = DEFAULT_RAM_SIZE) /\
  s_reserved_region st = {| start := 0; end_ := 0 |}.

(** Rounding to a multiple of [ALIGN] in exact arithmetic. *)
Definition round_up (x : Z) : Z := ALIGN * ((x + (ALIGN - 1)) / ALIGN).
Definition round_down (x : Z) : Z := ALIGN * (x / ALIGN).

(** *** The specification's reading of the boundary computation

    Written from the specification (section 4.1, [Reserve], steps 2 to
    6), to compare the code with. *)

(** Step 2: an explicit override is used as it is; otherwise a marker
    that is present, not zero and above the compile-time base gives the
    size [marker - base]; otherwise the compile-time defaults. *)
Definition spec_bounds (explicit : option (Z * Z)) (marker : Marker) : Z * Z :=
  match explicit with
  | Some bounds => bounds
  | None =>
      match marker with
      | Some a =>
          if negb (a =? 0) && (DEFAULT_RAM_BASE <? a)
          then (DEFAULT_RAM_BASE, a - DEFAULT_RAM_BASE)
          else (DEFAULT_RAM_BASE, DEFAULT_RAM_SIZE)
      | None => (DEFAULT_RAM_BASE, DEFAULT_RAM_SIZE)
      end
  end.

(** Steps 3 to 6: the size must exceed the prefix; the candidate
    [[base + prefix, base + size)] has its start rounded up and its end
    rounded down to a multiple of 4, the addresses being 32-bit values;
    an interval left empty or inverted is a failure. *)
Definition spec_region (base size : Z) : option Region :=
  if size <=? RESERVED_PREFIX then None else
  let s := Word.wrap (round_up (Word.wrap (base + RESERVED_PREFIX))) in
  let e := round_down (Word.wrap (base + size)) in
  if s <? e then Some {| start := s; end_ := e |} else None.

(** The explicit override held by a state, if any. *)
Definition explicit_bounds (st : State) : option (Z * Z) :=
  if s_explicit_bounds_set st
  then Some (s_ram_base st, s_ram_size st)
  else None.

End MemoryManager.

(** ** Memory-mapped device registers

    The LCD driver talks to the SPI and GPIO blocks through
    [volatile uint32_t] accesses.  A run is a function of the values the
    device returns to the loads: [inputs] holds the values still to come,
    in order, and [trace] records every access made so far, newest first.
    A run that needs a value when [inputs] is empty is cut off ([None]). *)

Module Mmio.

Inductive Event : Type :=
| Load (addr val : Z)
| Store (addr val : Z).

Record World : Type := mkWorld {
  trace : list Event;
  inputs : list Z
}.

Definition M (A : Type) : Type := World -> option (A * World).

Definition ret {A : Type} (a : A) : M A := fun w => Some (a, w).

Definition bind {A B : Type} (c : M A) (k : A -> M B) : M B :=
  fun w =>
    match c w with
    | None => None
    | Some (a, w') => k a w'
    end.

(** [*(volatile uint32_t* )addr = val;] *)
Definition volatile_store (addr val : Z) : M unit :=
  fun w => Some (tt, {| trace := Store addr val :: trace w;
                        inputs := inputs w |}).

(** [*(volatile uint32_t* )addr] read: the next device value, as a
    32-bit word. *)
Definition volatile_load (addr : Z) : M Z :=
  fun w =>
    match inputs w with
    | [] => None
    | v :: rest =>
        Some (Word.wrap v, {| trace := Load addr (Word.wrap v) :: trace w;
                              inputs := rest |})
    end.

(** [for (int i = lo; i < hi; i++) body(i);] for a body that leaves [i]
    alone. *)
Fixpoint for_from (n : nat) (i : Z) (body : Z -> M unit) : M unit :=
  match n with
  | O => ret tt
  | S n' => bind (body i) (fun _ => for_from n' (i + 1) body)
  end.

Definition for_loop (lo hi : Z) (body : Z -> M unit) : M unit :=
  for_from (Z.to_nat (hi - lo)) lo body.

(** The stores of a trace, oldest first, as (address, value) pairs. *)
Fixpoint stores_rev (t : list Event) : list (Z * Z) :=
  match t with
  | [] => []
  | Store a v :: t' => (a, v) :: stores_rev t'
  | Load _ _ :: t' => stores_rev t'
  end.

Definition stores (w : World) : list (Z * Z) := rev (stores_rev (trace w)).

End Mmio.

Notation "x <- c ;; k" := (Mmio.bind c (fun x => k))
  (at level 61, c at next level, right associativity).
Notation "c ;; k" := (Mmio.bind c (fun _ => k))
  (at level 61, right associativity).

(** ** Signed and narrow integers of the driver *)

Module CInt.

(** Conversion to [uint8_t] and [uint16_t]. *)
Definition to_uint8 (x : Z) : Z := x mod 2 ^ 8.
Definition to_uint16 (x : Z) : Z := x mod 2 ^ 16.

(** The values of a 32-bit [int], and reduction to them (two's
    complement, as the RISC-V [add] instruction computes). *)
Definition in_int (x : Z) : Prop := - 2 ^ 31 <= x < 2 ^ 31.
Definition to_int (x : Z) : Z := (x + 2 ^ 31) mod 2 ^ 32 - 2 ^ 31.
Definition add (a b : Z) : Z := to_int (a + b).

(** Character codes, and C string literals with their terminator. *)
Definition char (c : Ascii.ascii) : Z := Z.of_N (Ascii.N_of_ascii c).
Definition c_str (s : String.string) : list Z :=
  map char (String.list_ascii_of_string s) ++ [0].

End CInt.

(** ** The LCD driver ([lcd_driver.cpp]) *)

Module LCDDriver.

Import Mmio.

Definition SPI_BASE : Z := 0x60002000.
Definition SPI_CMD_REG : Z := SPI_BASE + 0x00.
Definition SPI_DATA_REG : Z := SPI_BASE + 0x08.
Definition GPIO_BASE : Z := 0x60004000.
Definition GPIO_OUT_REG : Z := GPIO_BASE + 0x04.

(** [while ( *(volatile uint32_t* )SPI_CMD_REG & (1 << 0));]  Every
    iteration takes one device value, so one unit of fuel more than there
    are values left can never be the reason the loop stops. *)
Fixpoint wait_transmission_fuel (fuel : nat) : M unit :=
  match fuel with
  | O => fun _ => None
  | S fuel' =>
      v <- volatile_load SPI_CMD_REG ;;
      if negb (Z.land v (Z.shiftl 1 0) =? 0)
      then wait_transmission_fuel fuel'
      else ret tt
  end.

Definition wait_transmission : M unit :=
  fun w => wait_transmission_fuel (S (length (inputs w))) w.

(** [for (volatile int i = 0; i < n; i++);]: the counter lives on the
    stack; the loop touches no device register and only takes time. *)
Definition delay (n : Z) : M unit := ret tt.

(** The [uint8_t] parameter takes the argument modulo 256. *)
Definition sendCommand (cmd : Z) : M unit :=
  volatile_store SPI_CMD_REG 0 ;;
  volatile_store SPI_DATA_REG (CInt.to_uint8 cmd) ;;
  wait_transmission.

Definition sendData (data : Z) : M unit :=
  volatile_store SPI_CMD_REG 1 ;;
  volatile_store SPI_DATA_REG (CInt.to_uint8 data) ;;
  wait_transmission.

Definition initialize : M unit :=
  v <- volatile_load GPIO_OUT_REG ;;
  volatile_store GPIO_OUT_REG (Word.and v (Word.not (Z.shiftl 1 5))) ;;
  delay 100000 ;;
  v <- volatile_load GPIO_OUT_REG ;;
  volatile_store GPIO_OUT_REG (Z.lor v (Z.shiftl 1 5)) ;;
  sendCommand 0x01 ;;
  delay 120000 ;;
  sendCommand 0x11 ;;
  delay 120000 ;;
  sendCommand 0x29.

(** [x] and [y] are [int], [color] is [uint16_t]; [>>] on [int] is the
    arithmetic shift. *)
Definition drawPixel (x y color : Z) : M unit :=
  let color := CInt.to_uint16 color in
  sendCommand 0x2A ;;
  sendData (Z.shiftr x 8) ;;
  sendData (Z.land x 0xFF) ;;
  sendCommand 0x2B ;;
  sendData (Z.shiftr y 8) ;;
  sendData (Z.land y 0xFF) ;;
  sendCommand 0x2C ;;
  sendData (Z.shiftr color 8) ;;
  sendData (Z.land color 0xFF).

Definition clearScreen (color : Z) : M unit :=
  let color := CInt.to_uint16 color in
  sendCommand 0x2C ;;
  for_loop 0 (240 * 320) (fun i =>
    sendData (Z.shiftr color 8) ;;
    sendData (Z.land color 0xFF)).

(** [Print(const char* str, int x, int y, uint16_t color)].  [str] is
    the bytes in memory from the pointer on; the loop stops at the first
    zero byte, and reading past the bytes given is cut off ([None]). *)
Fixpoint Print_loop (str : list Z) (offset : Z) (x y color : Z) : M unit :=
  match str with
  | [] => fun _ => None
  | c :: str' =>
      if negb (c =? 0) then
        drawPixel (CInt.add x offset) y color ;;
        Print_loop str' (CInt.add offset 8) x y color
      else ret tt
  end.

Definition Print (str : list Z) (x y color : Z) : M unit :=
  Print_loop str 0 x y color.

(** *** Vocabulary for the properties *)

(** A value of [SPI_CMD_REG] with the busy bit clear. *)
Definition ready (v : Z) : bool := Z.land (Word.wrap v) 1 =? 0.

(** How many of the coming device values show the busy bit clear. *)
Fixpoint count_ready (ins : list Z) : Z :=
  match ins with
  | [] => 0
  | v :: rest => (if ready v then 1 else 0) + count_ready rest
  end.

(** The two stores of one SPI transfer: the mode (0 command, 1 data) and
    the byte. *)
Definition transfer (mode byte : Z) : list (Z * Z) :=
  [(SPI_CMD_REG, mode); (SPI_DATA_REG, byte)].

(** The stores of one pixel write: column, row and colour, each as a high
    and a low byte. *)
Definition pixel_stores (x y color : Z) : list (Z * Z) :=
  transfer 0 0x2A ++ transfer 1 (x / 256 mod 256) ++ transfer 1 (x mod 256) ++
  transfer 0 0x2B ++ transfer 1 (y / 256 mod 256) ++ transfer 1 (y mod 256) ++
  transfer 0 0x2C ++ transfer 1 (color mod 65536 / 256) ++
  transfer 1 (color mod 256).

(** [c] makes [n] SPI transfers and stores [out]: it returns exactly when
    [n] of the coming device values are ready ones, uses up exactly [n]
    ready values, and appends [out] to the stores. *)
Definition Transfers {A : Type} (c : M A) (n : Z) (out : list (Z * Z)) : Prop :=
  forall w,
    (n <= count_ready (inputs w) <-> exists a w', c w = Some (a, w')) /\
    (forall a w', c w = Some (a, w') ->
       count_ready (inputs w') = count_ready (inputs w) - n /\
       stores w' = stores w ++ out).

End LCDDriver.

(** ** The kernel entry point ([kernel_main.cpp]) *)

Module Kernel.

Import Mmio.

(** [buf[i] = v] on a [char] array held as a list. *)
Fixpoint array_set (buf : list Z) (i : nat) (v : Z) : list Z :=
  match buf, i with
  | [], _ => []
  | _ :: rest, O => v :: rest
  | c :: rest, S i' => c :: array_set rest i' v
  end.

(** [for (int i = lo; ...; i++)] over a local state. *)
Fixpoint fold_from {S : Type} (n : nat) (i : Z) (body : Z -> S -> S) (s : S) : S :=
  match n with
  | O => s
  | Datatypes.S n' => fold_from n' (i + 1) body (body i s)
  end.

(** Lines 25-33 of [kernel_main]: the text of [a1_value] in
    [hex_buffer], whose 11 bytes start out as [uninit]. *)
Definition format_hex (a1_value : Z) (uninit : list Z) : list Z :=
  let hex_buffer := uninit in
  let hex_buffer := array_set hex_buffer 0 (CInt.char "0"%char) in
  let hex_buffer := array_set hex_buffer 1 (CInt.char "x"%char) in
  let hex_buffer :=
    fold_from 8 0 (fun i hex_buffer =>
      let nibble :=
        CInt.to_uint8 (Z.land (Z.shiftr a1_value ((7 - i) * 4)) 0xF) in
      array_set hex_buffer (Z.to_nat (i + 2))
        (if nibble <? 10 then CInt.char "0"%char + nibble
         else CInt.char "A"%char + nibble - 10)) hex_buffer in
  array_set hex_buffer 10 0.

(** [kernel_main] up to its final [while (true) {}], which touches
    nothing and never ends: [a1_value] is what the [mv] reads from
    register [a1], and the result is [hex_buffer] as the loop is
    entered. *)
Definition kernel_main (a1_value : Z) (uninit : list Z) : M (list Z) :=
  LCDDriver.initialize ;;
  LCDDriver.clearScreen 0x0000 ;;
  LCDDriver.Print (CInt.c_str "Hello, World!"%string) 0 0 0xFFFF ;;
  LCDDriver.Print (CInt.c_str "Welcome to Micro32!"%string) 0 16 0xFFFF ;;
  let hex_buffer := format_hex a1_value uninit in
  LCDDriver.Print (CInt.c_str "a1 register:"%string) 0 32 0xFFFF ;;
  LCDDriver.Print hex_buffer 0 48 0xFFFF ;;
  ret hex_buffer.

(** The number a string of hexadecimal digits denotes, most significant
    digit first. *)
Definition hex_digit_value (c : Z) : Z :=
  if (CInt.char "0"%char <=? c) && (c <=? CInt.char "9"%char) then c - CInt.char "0"%char
  else c - CInt.char "A"%char + 10.

Definition hex_value (digits : list Z) : Z :=
  fold_left (fun acc c => 16 * acc + hex_digit_value c) digits 0.

(** Upper-case hexadecimal digits. *)
Definition is_hex_digit (c : Z) : bool :=
  ((CInt.char "0"%char <=? c) && (c <=? CInt.char "9"%char)) ||
  ((CInt.char "A"%char <=? c) && (c <=? CInt.char "F"%char)).

End Kernel.


Import MemoryManager.

(** * Properties *)

(** ** Word arithmetic *)

Lemma modulus_value : Word.modulus = 4294967296.
Proof. reflexivity. Qed.

Lemma wrap_in_range (x : Z) : Word.in_range (Word.wrap x).
Proof.
  unfold Word.in_range, Word.wrap. rewrite modulus_value.
  apply Z.mod_pos_bound. lia.
Qed.

Lemma wrap_small (x : Z) : Word.in_range x -> Word.wrap x = x.
Proof.
  unfold Word.in_range, Word.wrap. intros H. now apply Z.mod_small.
Qed.

Lemma not_3_value : Word.not (ALIGN - 1) = 4294967292.
Proof. reflexivity. Qed.

(** Bits of the mask [~(ALIGN - 1)]. *)
Lemma mask_testbit (n : Z) :
  0 <= n ->
  Z.testbit 4294967292 n = (2 <=? n) && (n <? 32).
Proof.
  intros Hn.
  change 4294967292 with (Z.lnot (Z.ones 2) mod 2 ^ 32).
  destruct (Z.ltb_spec n 32) as [Hlt | Hge].
  - rewrite Z.mod_pow2_bits_low by lia.
    rewrite Z.lnot_spec by lia.
    destruct (Z.leb_spec 2 n) as [H2 | H2].
    + rewrite Z.ones_spec_high by lia. reflexivity.
    + rewrite Z.ones_spec_low by lia. reflexivity.
  - rewrite Z.mod_pow2_bits_high by lia.
    now rewrite andb_false_r.
Qed.

(** [x & ~3] clears the two low bits of a 32-bit word. *)
Lemma and_mask_round_down (x : Z) :
  Word.in_range x ->
  Word.and x (Word.not (ALIGN - 1)) = round_down x.
Proof.
  intros Hx. rewrite not_3_value. unfold Word.and, round_down, ALIGN.
  replace (4 * (x / 4)) with (Z.shiftl (Z.shiftr x 2) 2)
    by (rewrite Z.shiftl_mul_pow2, Z.shiftr_div_pow2 by lia;
        change (2 ^ 2) with 4; lia).
  apply Z.bits_inj'. intros n Hn.
  rewrite Z.land_spec, mask_testbit by assumption.
  rewrite Z.shiftl_spec by assumption.
  destruct (Z.leb_spec 2 n) as [H2 | H2].
  - rewrite Z.shiftr_spec by lia.
    replace (n - 2 + 2) with n by lia.
    destruct (Z.ltb_spec n 32) as [Hlt | Hge].
    + now rewrite andb_true_r.
    + rewrite andb_false_r. symmetry.
      rewrite <- (Z.mod_small x (2 ^ 32)) by exact Hx.
      apply Z.mod_pow2_bits_high. lia.
  - rewrite Z.testbit_neg_r with (n := n - 2) by lia.
    now rewrite andb_false_r.
Qed.

Lemma round_down_bounds (x : Z) :
  round_down x <= x < round_down x + 4 /\ round_down x mod 4 = 0.
Proof.
  unfold round_down, ALIGN. split.
  - pose proof (Z.mod_pos_bound x 4 ltac:(lia)).
    pose proof (Z.div_mod x 4 ltac:(lia)). lia.
  - rewrite Z.mul_comm. apply Z.mod_mul. lia.
Qed.

Lemma round_up_bounds (x : Z) :
  x <= round_up x < x + 4 /\ round_up x mod 4 = 0.
Proof.
  unfold round_up, ALIGN. split.
  - pose proof (Z.mod_pos_bound (x + (4 - 1)) 4 ltac:(lia)).
    pose proof (Z.div_mod (x + (4 - 1)) 4 ltac:(lia)). lia.
  - rewrite Z.mul_comm. apply Z.mod_mul. lia.
Qed.

Lemma round_down_aligned (x : Z) : x mod 4 = 0 -> round_down x = x.
Proof.
  intros H. unfold round_down, ALIGN.
  pose proof (Z.div_mod x 4 ltac:(lia)). lia.
Qed.

Lemma round_up_aligned (x : Z) : x mod 4 = 0 -> round_up x = x.
Proof.
  intros H. pose proof (round_up_bounds x) as [Hb Hm].
  pose proof (Z.div_mod x 4 ltac:(lia)).
  pose proof (Z.div_mod (round_up x) 4 ltac:(lia)). lia.
Qed.

(** The code's rounding of [usable_start]: the exact round-up, reduced
    to 32 bits. *)
Lemma align_start_code (x : Z) :
  Word.in_range x ->
  (if negb (x mod ALIGN =? 0) then
     Word.and (Word.add x (ALIGN - 1)) (Word.not (ALIGN - 1))
   else x) = Word.wrap (round_up x).
Proof.
  intros Hx. pose proof Hx as Hx'. unfold Word.in_range in Hx'.
  rewrite modulus_value in Hx'.
  change (x mod ALIGN) with (x mod 4).
  destruct (Z.eqb_spec (x mod 4) 0) as [H0 | H0]; cbn [negb].
  - rewrite round_up_aligned by assumption. symmetry. now apply wrap_small.
  - rewrite and_mask_round_down by apply wrap_in_range.
    unfold Word.add, Word.wrap, round_down, round_up, ALIGN.
    rewrite modulus_value.
    pose proof (Z.mod_pos_bound x 4 ltac:(lia)).
    pose proof (Z.div_mod x 4 ltac:(lia)).
    destruct (Z_lt_le_dec (x + (4 - 1)) 4294967296) as [Hs | Hl].
    + rewrite (Z.mod_small (x + (4 - 1))) by lia.
      symmetry. apply Z.mod_small.
      pose proof (Z.mod_pos_bound (x + (4 - 1)) 4 ltac:(lia)).
      pose proof (Z.div_mod (x + (4 - 1)) 4 ltac:(lia)). lia.
    + assert (Hq : (x + (4 - 1)) / 4 = 1073741824).
      { symmetry. apply Z.div_unique with (r := x + 3 - 4294967296); lia. }
      rewrite Hq.
      replace ((x + (4 - 1)) mod 4294967296) with (x + 3 - 4294967296)
        by (apply Z.mod_unique with (q := 1); lia).
      rewrite Z.div_small by lia. reflexivity.
Qed.

(** The code's rounding of [usable_end]: the exact round-down. *)
Lemma align_end_code (x : Z) :
  Word.in_range x ->
  (if negb (x mod ALIGN =? 0) then Word.and x (Word.not (ALIGN - 1))
   else x) = round_down x.
Proof.
  intros Hx. change (x mod ALIGN) with (x mod 4).
  destruct (Z.eqb_spec (x mod 4) 0) as [H0 | H0]; cbn [negb].
  - now rewrite round_down_aligned.
  - now apply and_mask_round_down.
Qed.


(** ** Structure of [reserve_all_except_first_8kb] *)

Lemma reserve_phases L fuel sym zero_memory st m :
  reserve_all_except_first_8kb L fuel sym zero_memory st m =
  if s_reserved st then Some (true, st, m) else
  match usable_region (fst (effective_bounds sym st))
                      (snd (effective_bounds sym st)) with
  | None => Some (false, st, m)
  | Some r =>
      match (if zero_memory
             then zero_loop L fuel (start r) (end_ r) (record_region st r) m
             else Some (record_region st r, m)) with
      | None => None
      | Some (st2, m') => Some (true, mark_reserved st2, m')
      end
  end.
Proof.
  unfold reserve_all_except_first_8kb, effective_bounds, usable_region,
    record_region, mark_reserved.
  destruct (s_reserved st); [reflexivity |].
  destruct (negb (s_explicit_bounds_set st)); cbn zeta.
  - destruct (negb (compute_ram_end_from_linker sym =? 0)
              && (s_ram_base st <? compute_ram_end_from_linker sym));
      cbn [fst snd];
      match goal with |- context [?a <=? RESERVED_PREFIX] =>
        destruct (a <=? RESERVED_PREFIX) end; try reflexivity;
      match goal with |- context [if ?a <=? ?b then Some (false, _, _) else _] =>
        destruct (a <=? b) end; reflexivity.
  - cbn [fst snd].
    destruct (s_ram_size st <=? RESERVED_PREFIX); try reflexivity.
    match goal with |- context [if ?a <=? ?b then Some (false, _, _) else _] =>
      destruct (a <=? b) end; reflexivity.
Qed.

(** Recording the region and then setting the flag is the commit. *)
Lemma mark_record st r : mark_reserved (record_region st r) = commit st r.
Proof. reflexivity. Qed.


(** What a successful boundary computation yields, in terms of the exact
    roundings. *)
Lemma usable_region_some ram_base ram_size r :
  usable_region ram_base ram_size = Some r ->
  RESERVED_PREFIX < ram_size /\
  start r = Word.wrap (round_up (Word.add ram_base RESERVED_PREFIX)) /\
  end_ r = round_down (Word.add ram_base ram_size) /\
  start r < end_ r.
Proof.
  unfold usable_region.
  destruct (Z.leb_spec ram_size RESERVED_PREFIX) as [Hs | Hs]; [discriminate |].
  rewrite align_start_code by apply wrap_in_range.
  rewrite align_end_code by apply wrap_in_range.
  destruct (Z.leb_spec (round_down (Word.add ram_base ram_size))
              (Word.wrap (round_up (Word.add ram_base RESERVED_PREFIX))))
    as [Hc | Hc]; [discriminate |].
  intros [= <-]. cbn [start end_]. auto.
Qed.

Lemma usable_region_none ram_base ram_size :
  usable_region ram_base ram_size = None ->
  ram_size <= RESERVED_PREFIX \/
  round_down (Word.add ram_base ram_size)
    <= Word.wrap (round_up (Word.add ram_base RESERVED_PREFIX)).
Proof.
  unfold usable_region.
  destruct (Z.leb_spec ram_size RESERVED_PREFIX) as [Hs | Hs]; [auto |].
  rewrite align_start_code by apply wrap_in_range.
  rewrite align_end_code by apply wrap_in_range.
  destruct (Z.leb_spec (round_down (Word.add ram_base ram_size))
              (Word.wrap (round_up (Word.add ram_base RESERVED_PREFIX))))
    as [Hc | Hc]; [auto | discriminate].
Qed.

(** The rounded-up start, reduced to 32 bits, is still a multiple of 4. *)
Lemma wrap_round_up_aligned (x : Z) : Word.wrap (round_up x) mod 4 = 0.
Proof.
  unfold Word.wrap. rewrite modulus_value.
  pose proof (round_up_bounds x) as [_ Hm].
  rewrite Z.mod_mod_divide; [assumption |].
  exists 1073741824. reflexivity.
Qed.

(** A computed region is word aligned, non-empty and made of 32-bit
    addresses. *)
Lemma usable_region_aligned ram_base ram_size r :
  usable_region ram_base ram_size = Some r ->
  start r mod 4 = 0 /\ end_ r mod 4 = 0 /\
  0 <= start r /\ start r < end_ r /\ end_ r <= Word.modulus - 4.
Proof.
  intros H. apply usable_region_some in H as (_ & Hst & Hen & Hlt).
  pose proof (wrap_round_up_aligned (Word.add ram_base RESERVED_PREFIX)) as Ha.
  pose proof (round_down_bounds (Word.add ram_base ram_size)) as [Hb Hm].
  pose proof (wrap_in_range (round_up (Word.add ram_base RESERVED_PREFIX))) as Hr.
  pose proof (wrap_in_range (ram_base + ram_size)) as Hr'.
  fold (Word.add ram_base ram_size) in Hr'.
  unfold Word.in_range in Hr, Hr'. rewrite modulus_value in *.
  rewrite <- Hst in Ha, Hr. rewrite <- Hen in Hb, Hm.
  repeat split; try lia.
  pose proof (Z.div_mod (end_ r) 4 ltac:(lia)). lia.
Qed.

(** ** Memory *)

Lemma store8_same m a v : store8 m a v a = v mod 256.
Proof. unfold store8. now rewrite Z.eqb_refl. Qed.

Lemma store8_other m a v x : x <> a -> store8 m a v x = m x.
Proof.
  unfold store8. intros H. destruct (Z.eqb_spec x a); [contradiction | reflexivity].
Qed.

(** A zero word stored at a 32-bit address [p <= 2^32 - 4] clears bytes
    [p .. p+3] and nothing else. *)
Lemma store32_zero m p x :
  0 <= p -> p + 4 <= Word.modulus ->
  store32 m p 0 x = if (p <=? x) && (x <? p + 4) then 0 else m x.
Proof.
  intros Hp Hp4. rewrite modulus_value in Hp4.
  unfold store32, Word.add.
  rewrite !wrap_small by (unfold Word.in_range; rewrite modulus_value; lia).
  unfold store8. cbn [Z.shiftr Z.shiftl Z.modulo Z.div_eucl].
  destruct (Z.eqb_spec x (p + 3)), (Z.eqb_spec x (p + 2)),
           (Z.eqb_spec x (p + 1)), (Z.eqb_spec x p),
           (Z.leb_spec p x), (Z.ltb_spec x (p + 4));
    cbn [andb]; try reflexivity; lia.
Qed.


(** ** Stores that land on the variables *)

(** A word store inside the address space writes the four bytes from
    [p] and no other. *)
Lemma written_byte_none p w x :
  0 <= p -> p + 4 <= Word.modulus ->
  x < p \/ p + 4 <= x ->
  written_byte p w x = None.
Proof.
  intros Hp Hp4 Hx. rewrite modulus_value in Hp4.
  unfold written_byte, Word.add.
  rewrite !wrap_small by (unfold Word.in_range; rewrite modulus_value; lia).
  destruct (Z.eqb_spec x (p + 3)), (Z.eqb_spec x (p + 2)),
           (Z.eqb_spec x (p + 1)), (Z.eqb_spec x p); try reflexivity; lia.
Qed.

Lemma poke_word_outside a v p w :
  0 <= p -> p + 4 <= Word.modulus ->
  a + 4 <= p \/ p + 4 <= a ->
  poke_word a v p w = v.
Proof.
  intros Hp Hp4 Ha. unfold poke_word.
  rewrite !written_byte_none by (try assumption; lia). reflexivity.
Qed.

Lemma poke_bool_outside a b p w :
  0 <= p -> p + 4 <= Word.modulus ->
  a + 1 <= p \/ p + 4 <= a ->
  poke_bool a b p w = b.
Proof.
  intros Hp Hp4 Ha. unfold poke_bool.
  rewrite written_byte_none by (try assumption; lia). reflexivity.
Qed.

Lemma region_avoids_statics_spec L r :
  region_avoids_statics L r = true -> Avoids L (start r) (end_ r).
Proof.
  unfold region_avoids_statics, outside, Avoids.
  rewrite !andb_true_iff, !orb_true_iff, !Z.leb_le. tauto.
Qed.

Lemma poke_statics_avoided L st p w :
  0 <= p -> p + 4 <= Word.modulus ->
  Avoids L p (p + 4) ->
  poke_statics L st p w = st.
Proof.
  intros Hp Hp4 (H1 & H2 & H3 & H4 & H5).
  destruct st as [b s [rs re] res ex]. unfold poke_statics.
  cbn [s_ram_base s_ram_size s_reserved_region s_reserved
       s_explicit_bounds_set start end_].
  rewrite !poke_word_outside, !poke_bool_outside by (try assumption; lia).
  reflexivity.
Qed.

(** ** The zeroing loop *)

(** With word-aligned bounds below [2^32] the loop, when it ends, has
    cleared exactly the bytes of [[p, p_end)] in the memory. *)
Lemma zero_loop_post L (p_end : Z) (fuel : nat) :
  p_end mod 4 = 0 -> p_end + 4 <= Word.modulus ->
  forall p st m st' m',
    p mod 4 = 0 -> 0 <= p ->
    zero_loop L fuel p p_end st m = Some (st', m') ->
    forall a, m' a = if (p <=? a) && (a <? p_end) then 0 else m a.
Proof.
  intros He Hb. induction fuel as [| fuel IH]; intros p st m st' m' Hp H0 Hz a;
    cbn [zero_loop] in Hz.
  - destruct (Z.ltb_spec p p_end) as [Hlt | Hge]; [discriminate |].
    injection Hz as _ <-.
    destruct (Z.leb_spec p a), (Z.ltb_spec a p_end); cbn [andb];
      try reflexivity; lia.
  - destruct (Z.ltb_spec p p_end) as [Hlt | Hge].
    + assert (Hstep : p + 4 <= p_end).
      { pose proof (Z.div_mod p 4 ltac:(lia)).
        pose proof (Z.div_mod p_end 4 ltac:(lia)). lia. }
      assert (Hadd : Word.add p 4 = p + 4).
      { apply wrap_small. unfold Word.in_range. lia. }
      rewrite Hadd in Hz.
      assert (Hp4 : (p + 4) mod 4 = 0).
      { rewrite <- Z.add_mod_idemp_l, Hp by lia. reflexivity. }
      rewrite (IH (p + 4) _ _ st' m' Hp4 ltac:(lia) Hz).
      rewrite store32_zero by lia.
      destruct (Z.leb_spec (p + 4) a), (Z.ltb_spec a p_end),
               (Z.leb_spec p a), (Z.ltb_spec a (p + 4));
        cbn [andb]; try reflexivity; lia.
    + injection Hz as _ <-.
      destruct (Z.leb_spec p a), (Z.ltb_spec a p_end); cbn [andb];
        try reflexivity; lia.
Qed.

(** When the interval contains none of the variables, the loop leaves
    them as they are. *)
Lemma zero_loop_statics_avoided L (p_end : Z) (fuel : nat) :
  p_end mod 4 = 0 -> p_end + 4 <= Word.modulus ->
  forall p st m st' m',
    p mod 4 = 0 -> 0 <= p ->
    Avoids L p p_end ->
    zero_loop L fuel p p_end st m = Some (st', m') ->
    st' = st.
Proof.
  intros He Hb. induction fuel as [| fuel IH];
    intros p st m st' m' Hp H0 Hav Hz; cbn [zero_loop] in Hz.
  - destruct (Z.ltb_spec p p_end) as [Hlt | Hge]; [discriminate |].
    now injection Hz as <- _.
  - destruct (Z.ltb_spec p p_end) as [Hlt | Hge];
      [| now injection Hz as <- _].
    assert (Hstep : p + 4 <= p_end).
    { pose proof (Z.div_mod p 4 ltac:(lia)).
      pose proof (Z.div_mod p_end 4 ltac:(lia)). lia. }
    assert (Hadd : Word.add p 4 = p + 4).
    { apply wrap_small. unfold Word.in_range. lia. }
    rewrite Hadd in Hz.
    assert (Hp4 : (p + 4) mod 4 = 0).
    { rewrite <- Z.add_mod_idemp_l, Hp by lia. reflexivity. }
    rewrite poke_statics_avoided in Hz
      by (try lia; unfold Avoids in *; lia).
    refine (IH (p + 4) st _ st' m' Hp4 ltac:(lia) _ Hz).
    unfold Avoids in *. lia.
Qed.

(** With word-aligned bounds below [2^32] the loop ends within
    [words_between] iterations. *)
Lemma zero_loop_terminates L (p_end : Z) (fuel : nat) :
  p_end mod 4 = 0 -> p_end + 4 <= Word.modulus ->
  forall p st m,
    p mod 4 = 0 -> 0 <= p ->
    (words_between p p_end <= fuel)%nat ->
    exists st' m', zero_loop L fuel p p_end st m = Some (st', m').
Proof.
  intros He Hb. unfold words_between.
  induction fuel as [| fuel IH]; intros p st m Hp H0 Hf; cbn [zero_loop].
  - destruct (Z.ltb_spec p p_end) as [Hlt | Hge]; [| eauto].
    exfalso.
    pose proof (Z.div_mod p 4 ltac:(lia)).
    pose proof (Z.div_mod p_end 4 ltac:(lia)).
    assert ((p_end - p) / 4 = p_end / 4 - p / 4)
      by (symmetry; apply Z.div_unique with (r := 0); lia).
    lia.
  - destruct (Z.ltb_spec p p_end) as [Hlt | Hge]; [| eauto].
    pose proof (Z.div_mod p 4 ltac:(lia)).
    pose proof (Z.div_mod p_end 4 ltac:(lia)).
    assert (Hadd : Word.add p 4 = p + 4).
    { apply wrap_small. unfold Word.in_range. lia. }
    rewrite Hadd. apply IH.
    + rewrite <- Z.add_mod_idemp_l, Hp by lia. reflexivity.
    + lia.
    + assert ((p_end - p) / 4 = p_end / 4 - p / 4)
        by (symmetry; apply Z.div_unique with (r := 0); lia).
      assert ((p_end - (p + 4)) / 4 = p_end / 4 - p / 4 - 1)
        by (symmetry; apply Z.div_unique with (r := 0); lia).
      lia.
Qed.

(** Short of [words_between] iterations the loop between word-aligned
    bounds is cut off. *)
Lemma zero_loop_starved L (p_end : Z) (fuel : nat) :
  p_end mod 4 = 0 -> p_end + 4 <= Word.modulus ->
  forall p st m,
    p mod 4 = 0 -> 0 <= p ->
    (fuel < words_between p p_end)%nat ->
    zero_loop L fuel p p_end st m = None.
Proof.
  intros He Hb. unfold words_between.
  induction fuel as [| fuel IH]; intros p st m Hp H0 Hf; cbn [zero_loop].
  - destruct (Z.ltb_spec p p_end) as [Hlt | Hge]; [reflexivity |].
    exfalso.
    assert ((p_end - p) / 4 <= 0)
      by (apply Z.div_le_upper_bound; lia).
    lia.
  - pose proof (Z.div_mod p 4 ltac:(lia)).
    pose proof (Z.div_mod p_end 4 ltac:(lia)).
    assert (Hq : (p_end - p) / 4 = p_end / 4 - p / 4)
      by (symmetry; apply Z.div_unique with (r := 0); lia).
    destruct (Z.ltb_spec p p_end) as [Hlt | Hge]; [| lia].
    assert (Hadd : Word.add p 4 = p + 4).
    { apply wrap_small. unfold Word.in_range. lia. }
    rewrite Hadd. apply IH.
    + rewrite <- Z.add_mod_idemp_l, Hp by lia. reflexivity.
    + lia.
    + assert ((p_end - (p + 4)) / 4 = p_end / 4 - p / 4 - 1)
        by (symmetry; apply Z.div_unique with (r := 0); lia).
      lia.
Qed.

(** ** The three ways a call of [reserve_all_except_first_8kb] ends *)

Lemma reserve_cases L fuel sym zero_memory st m ret st' m' :
  reserve_all_except_first_8kb L fuel sym zero_memory st m
    = Some (ret, st', m') ->
  (s_reserved st = true /\ ret = true /\ st' = st /\ m' = m) \/
  (s_reserved st = false /\ ret = false /\ st' = st /\ m' = m /\
   usable_region (fst (effective_bounds sym st))
                 (snd (effective_bounds sym st)) = None) \/
  (s_reserved st = false /\ ret = true /\
   exists r st2,
     usable_region (fst (effective_bounds sym st))
                   (snd (effective_bounds sym st)) = Some r /\
     (if zero_memory
      then zero_loop L fuel (start r) (end_ r) (record_region st r) m
      else Some (record_region st r, m)) = Some (st2, m') /\
     st' = mark_reserved st2).
Proof.
  rewrite reserve_phases.
  destruct (s_reserved st) eqn:Hres.
  - intros [= <- <- <-]. left. auto.
  - destruct (usable_region _ _) as [r |] eqn:Hu.
    + destruct (if zero_memory then _ else _) as [[st2 m1] |] eqn:Hz;
        [| discriminate].
      intros [= <- <- <-]. right. right. repeat split.
      exists r, st2. auto.
    + intros [= <- <- <-]. right. left. auto.
Qed.

(** A committing call that does not zero, or whose region contains none
    of the variables, leaves exactly the commit. *)
Lemma reserve_commit_state L fuel sym zero_memory st m st' m' r :
  s_reserved st = false ->
  usable_region (fst (effective_bounds sym st))
                (snd (effective_bounds sym st)) = Some r ->
  zero_memory = false \/ region_avoids_statics L r = true ->
  reserve_all_except_first_8kb L fuel sym zero_memory st m
    = Some (true, st', m') ->
  st' = commit st r.
Proof.
  intros Hres Hu Hsafe H.
  apply reserve_cases in H
    as [(Hres' & _) | [(_ & [=] & _) | (_ & _ & r' & st2 & Hu' & Hz & ->)]];
    [congruence |].
  rewrite Hu in Hu'. injection Hu' as <-.
  destruct zero_memory.
  - destruct Hsafe as [[=] | Hav].
    apply region_avoids_statics_spec in Hav.
    apply usable_region_aligned in Hu as (Hs & He & H0 & Hlt & Hb).
    apply zero_loop_statics_avoided in Hz; try assumption; try lia.
    subst st2. apply mark_record.
  - injection Hz as <- _. apply mark_record.
Qed.

(** Every call returns once the fuel covers the words of the region. *)
Lemma reserve_total L fuel sym zero_memory st m :
  (enough_fuel sym st <= fuel)%nat ->
  exists ret st' m',
    reserve_all_except_first_8kb L fuel sym zero_memory st m
      = Some (ret, st', m').
Proof.
  intros Hf. rewrite reserve_phases. unfold enough_fuel in Hf.
  destruct (s_reserved st); [eauto |].
  destruct (usable_region _ _) as [r |] eqn:Hu; [| eauto].
  destruct zero_memory; [| eauto].
  apply usable_region_aligned in Hu as (Hs & He & H0 & Hlt & Hb).
  destruct (zero_loop_terminates L (end_ r) fuel He ltac:(lia)
              (start r) (record_region st r) m Hs H0 Hf) as (st2 & m' & ->).
  eauto.
Qed.

(** ** Invariant of the state between calls *)

Lemma initial_state_inv : state_inv initial_state.
Proof.
  unfold state_inv, initial_state, Word.in_range. rewrite modulus_value.
  cbn. intros _. repeat split; try lia; try discriminate.
Qed.

Lemma step_inv L sym st st' :
  Step L sym st st' -> state_inv st -> state_inv st'.
Proof.
  intros HS Hi.
  destruct HS as [st b s Hrb Hrs | st fuel z m ret st' m' Hr].
  - unfold state_inv, set_ram_bounds; cbn. intros Hres.
    destruct (Hi Hres) as (_ & _ & _ & Hz).
    split; [exact Hrb |]. split; [exact Hrs |].
    split; [discriminate | exact Hz].
  - apply reserve_cases in Hr
      as [(_ & _ & -> & _) | [(_ & _ & -> & _)
                             | (_ & _ & r & st2 & _ & _ & ->)]];
      try exact Hi.
    unfold state_inv, mark_reserved; cbn. discriminate.
Qed.

Lemma steps_inv L sym st st' :
  Steps L sym st st' -> state_inv st -> state_inv st'.
Proof.
  induction 1 as [| st0 st1 st2 _ IH HS]; intros Hi.
  - exact Hi.
  - eapply step_inv; eauto.
Qed.

Lemma reachable_inv L sym st : Reachable L sym st -> state_inv st.
Proof.
  intros H. eapply steps_inv; [exact H | apply initial_state_inv].
Qed.

(** ** The loop on the machine's memory *)

Lemma written_byte_zero p x :
  0 <= p -> p + 4 <= Word.modulus ->
  written_byte p 0 x = if (p <=? x) && (x <? p + 4) then Some 0 else None.
Proof.
  intros Hp Hp4. rewrite modulus_value in Hp4.
  unfold written_byte, Word.add.
  rewrite !wrap_small by (unfold Word.in_range; rewrite modulus_value; lia).
  destruct (Z.eqb_spec x (p + 3)), (Z.eqb_spec x (p + 2)),
           (Z.eqb_spec x (p + 1)), (Z.eqb_spec x p),
           (Z.leb_spec p x), (Z.ltb_spec x (p + 4));
    cbn [andb]; try reflexivity; lia.
Qed.

Lemma byte_of_range v j : 0 <= byte_of v j < 256.
Proof. unfold byte_of. apply Z.mod_pos_bound. lia. Qed.

(** The bytes of a word put together from four bytes. *)
Lemma byte_of_assembled b0 b1 b2 b3 :
  0 <= b0 < 256 -> 0 <= b1 < 256 -> 0 <= b2 < 256 -> 0 <= b3 < 256 ->
  byte_of (b0 + 2 ^ 8 * b1 + 2 ^ 16 * b2 + 2 ^ 24 * b3) 0 = b0 /\
  byte_of (b0 + 2 ^ 8 * b1 + 2 ^ 16 * b2 + 2 ^ 24 * b3) 1 = b1 /\
  byte_of (b0 + 2 ^ 8 * b1 + 2 ^ 16 * b2 + 2 ^ 24 * b3) 2 = b2 /\
  byte_of (b0 + 2 ^ 8 * b1 + 2 ^ 16 * b2 + 2 ^ 24 * b3) 3 = b3.
Proof.
  intros H0 H1 H2 H3. unfold byte_of.
  rewrite !Z.shiftr_div_pow2 by lia.
  change (2 ^ (8 * 0)) with 1. change (2 ^ (8 * 1)) with 256.
  change (2 ^ (8 * 2)) with 65536. change (2 ^ (8 * 3)) with 16777216.
  change (2 ^ 8) with 256. change (2 ^ 16) with 65536.
  change (2 ^ 24) with 16777216.
  repeat split.
  - rewrite Z.div_1_r. symmetry.
    apply Z.mod_unique with (q := b1 + 256 * b2 + 65536 * b3); lia.
  - replace ((b0 + 256 * b1 + 65536 * b2 + 16777216 * b3) / 256)
      with (b1 + 256 * b2 + 65536 * b3)
      by (apply Z.div_unique with (r := b0); lia).
    symmetry. apply Z.mod_unique with (q := b2 + 256 * b3); lia.
  - replace ((b0 + 256 * b1 + 65536 * b2 + 16777216 * b3) / 65536)
      with (b2 + 256 * b3)
      by (apply Z.div_unique with (r := b0 + 256 * b1); lia).
    symmetry. apply Z.mod_unique with (q := b3); lia.
  - replace ((b0 + 256 * b1 + 65536 * b2 + 16777216 * b3) / 16777216)
      with b3
      by (apply Z.div_unique with (r := b0 + 256 * b1 + 65536 * b2); lia).
    apply Z.mod_small. lia.
Qed.

(** Byte [j] of a 32-bit variable after a store of zero: cleared when
    the store covers it, kept otherwise. *)
Lemma poke_word_byte a v p j :
  0 <= p -> p + 4 <= Word.modulus ->
  0 <= j < 4 ->
  byte_of (poke_word a v p 0) j =
    if (p <=? a + j) && (a + j <? p + 4) then 0 else byte_of v j.
Proof.
  intros Hp Hp4 Hj. unfold poke_word.
  replace a with (a + 0) at 1 by lia.
  rewrite !written_byte_zero by assumption.
  pose proof (byte_of_range v 0). pose proof (byte_of_range v 1).
  pose proof (byte_of_range v 2). pose proof (byte_of_range v 3).
  assert (Hj' : j = 0 \/ j = 1 \/ j = 2 \/ j = 3) by lia.
  destruct ((p <=? a + 0) && (a + 0 <? p + 4)) eqn:E0,
           ((p <=? a + 1) && (a + 1 <? p + 4)) eqn:E1,
           ((p <=? a + 2) && (a + 2 <? p + 4)) eqn:E2,
           ((p <=? a + 3) && (a + 3 <? p + 4)) eqn:E3;
    cbn [byte_or];
    try (match goal with
         | |- context [byte_of (?b0 + 2 ^ 8 * ?b1 + 2 ^ 16 * ?b2
                                + 2 ^ 24 * ?b3) _] =>
             destruct (byte_of_assembled b0 b1 b2 b3
                         ltac:(lia) ltac:(lia) ltac:(lia) ltac:(lia))
               as (A0 & A1 & A2 & A3)
         end);
    destruct Hj' as [-> | [-> | [-> | ->]]];
    rewrite ?A0, ?A1, ?A2, ?A3, ?E0, ?E1, ?E2, ?E3; reflexivity.
Qed.

(** One store of zero through a pointer clears the four bytes at [p] of
    the machine's memory, variables included, and no other byte. *)
Lemma poke_machine_mem L st m p x :
  0 <= p -> p + 4 <= Word.modulus ->
  machine_mem L (poke_statics L st p 0) (store32 m p 0) x =
    if (p <=? x) && (x <? p + 4) then 0 else machine_mem L st m x.
Proof.
  intros Hp Hp4. unfold machine_mem, static_byte, poke_statics.
  cbn [s_ram_base s_ram_size s_reserved_region s_reserved
       s_explicit_bounds_set start end_].
  destruct ((addr_s_ram_base L <=? x) && (x <? addr_s_ram_base L + 4)) eqn:F1.
  { apply andb_true_iff in F1 as [Fa Fb].
    apply Z.leb_le in Fa. apply Z.ltb_lt in Fb.
    rewrite poke_word_byte by (try assumption; lia).
    replace (addr_s_ram_base L + (x - addr_s_ram_base L)) with x by lia.
    reflexivity. }
  destruct ((addr_s_ram_size L <=? x) && (x <? addr_s_ram_size L + 4)) eqn:F2.
  { apply andb_true_iff in F2 as [Fa Fb].
    apply Z.leb_le in Fa. apply Z.ltb_lt in Fb.
    rewrite poke_word_byte by (try assumption; lia).
    replace (addr_s_ram_size L + (x - addr_s_ram_size L)) with x by lia.
    reflexivity. }
  destruct ((addr_s_reserved_region L <=? x)
            && (x <? addr_s_reserved_region L + 4)) eqn:F3.
  { apply andb_true_iff in F3 as [Fa Fb].
    apply Z.leb_le in Fa. apply Z.ltb_lt in Fb.
    rewrite poke_word_byte by (try assumption; lia).
    replace (addr_s_reserved_region L + (x - addr_s_reserved_region L))
      with x by lia.
    reflexivity. }
  destruct ((addr_s_reserved_region L + 4 <=? x)
            && (x <? addr_s_reserved_region L + 8)) eqn:F4.
  { apply andb_true_iff in F4 as [Fa Fb].
    apply Z.leb_le in Fa. apply Z.ltb_lt in Fb.
    rewrite poke_word_byte by (try assumption; lia).
    replace (addr_s_reserved_region L + 4
             + (x - (addr_s_reserved_region L + 4))) with x by lia.
    reflexivity. }
  destruct (Z.eqb_spec x (addr_s_reserved L)) as [-> | F5].
  { unfold poke_bool. rewrite written_byte_zero by assumption.
    now destruct ((p <=? addr_s_reserved L) && (addr_s_reserved L <? p + 4)). }
  destruct (Z.eqb_spec x (addr_s_explicit_bounds_set L)) as [-> | F6].
  { unfold poke_bool. rewrite written_byte_zero by assumption.
    now destruct ((p <=? addr_s_explicit_bounds_set L)
                  && (addr_s_explicit_bounds_set L <? p + 4)). }
  apply store32_zero; assumption.
Qed.

(** The loop between word-aligned bounds clears exactly the bytes of
    [[p, p_end)] of the machine's memory, whatever lies there. *)
Lemma zero_loop_machine_mem L (p_end : Z) (fuel : nat) :
  p_end mod 4 = 0 -> p_end + 4 <= Word.modulus ->
  forall p st m st' m',
    p mod 4 = 0 -> 0 <= p ->
    zero_loop L fuel p p_end st m = Some (st', m') ->
    forall x,
      machine_mem L st' m' x =
        if (p <=? x) && (x <? p_end) then 0 else machine_mem L st m x.
Proof.
  intros He Hb. induction fuel as [| fuel IH]; intros p st m st' m' Hp H0 Hz x;
    cbn [zero_loop] in Hz.
  - destruct (Z.ltb_spec p p_end) as [Hlt | Hge]; [discriminate |].
    injection Hz as <- <-.
    destruct (Z.leb_spec p x), (Z.ltb_spec x p_end); cbn [andb];
      try reflexivity; lia.
  - destruct (Z.ltb_spec p p_end) as [Hlt | Hge].
    + assert (Hstep : p + 4 <= p_end).
      { pose proof (Z.div_mod p 4 ltac:(lia)).
        pose proof (Z.div_mod p_end 4 ltac:(lia)). lia. }
      assert (Hadd : Word.add p 4 = p + 4).
      { apply wrap_small. unfold Word.in_range. lia. }
      rewrite Hadd in Hz.
      assert (Hp4 : (p + 4) mod 4 = 0).
      { rewrite <- Z.add_mod_idemp_l, Hp by lia. reflexivity. }
      rewrite (IH (p + 4) _ _ st' m' Hp4 ltac:(lia) Hz).
      rewrite poke_machine_mem by lia.
      destruct (Z.leb_spec (p + 4) x), (Z.ltb_spec x p_end),
               (Z.leb_spec p x), (Z.ltb_spec x (p + 4));
        cbn [andb]; try reflexivity; lia.
    + injection Hz as <- <-.
      destruct (Z.leb_spec p x), (Z.ltb_spec x p_end); cbn [andb];
        try reflexivity; lia.
Qed.

(** ** Effective RAM bounds *)

Lemma effective_bounds_explicit sym st :
  s_explicit_bounds_set st = true ->
  effective_bounds sym st = (s_ram_base st, s_ram_size st).
Proof. unfold effective_bounds. now intros ->. Qed.

(** The base is never replaced: only the size can come from the marker. *)
Lemma effective_bounds_base sym st :
  fst (effective_bounds sym st) = s_ram_base st.
Proof.
  unfold effective_bounds.
  destruct (negb (s_explicit_bounds_set st)); [| reflexivity].
  cbn zeta. now destruct (_ && _).
Qed.

Lemma compute_ram_end_from_linker_range sym :
  marker_ok sym -> Word.in_range (compute_ram_end_from_linker sym).
Proof.
  destruct sym as [a |]; cbn.
  - intros Ha. destruct (Z.eqb_spec a 0); [| exact Ha].
    unfold Word.in_range. rewrite modulus_value. lia.
  - intros _. unfold Word.in_range. rewrite modulus_value. lia.
Qed.

(** Without explicit bounds the marker decides, against the compile-time
    base. *)
Lemma effective_bounds_default sym st :
  state_inv st -> marker_ok sym ->
  s_reserved st = false ->
  s_explicit_bounds_set st = false ->
  effective_bounds sym st =
    if DEFAULT_RAM_BASE <? compute_ram_end_from_linker sym
    then (DEFAULT_RAM_BASE, compute_ram_end_from_linker sym - DEFAULT_RAM_BASE)
    else (DEFAULT_RAM_BASE, DEFAULT_RAM_SIZE).
Proof.
  intros Hi Hm Hres Hex. destruct (Hi Hres) as (_ & _ & Hd & _).
  destruct (Hd Hex) as [Hb Hs].
  apply compute_ram_end_from_linker_range in Hm.
  unfold effective_bounds. rewrite Hex, Hb, Hs. cbn [negb].
  set (e := compute_ram_end_from_linker sym) in *.
  unfold Word.in_range in Hm. rewrite modulus_value in Hm.
  destruct (Z.ltb_spec DEFAULT_RAM_BASE e) as [Hlt | Hge].
  - assert (Hne : (e =? 0) = false)
      by (apply Z.eqb_neq; unfold DEFAULT_RAM_BASE in Hlt; lia).
    rewrite Hne. cbn [negb andb]. f_equal.
    apply wrap_small. unfold Word.in_range, DEFAULT_RAM_BASE in *.
    rewrite modulus_value. lia.
  - now rewrite andb_false_r.
Qed.

(** Two markers that give the same effective bounds give the same call. *)
Lemma reserve_same_bounds L fuel sym sym' zero_memory st m :
  effective_bounds sym st = effective_bounds sym' st ->
  reserve_all_except_first_8kb L fuel sym zero_memory st m =
  reserve_all_except_first_8kb L fuel sym' zero_memory st m.
Proof. intros H. rewrite !reserve_phases, H. reflexivity. Qed.

(** ** The code against the specification's reading *)

(** The boundary computation of the code is the one the specification
    describes, on 32-bit addresses. *)
Lemma usable_region_spec b s : usable_region b s = spec_region b s.
Proof.
  unfold usable_region, spec_region.
  destruct (s <=? RESERVED_PREFIX); [reflexivity |].
  rewrite align_start_code by apply wrap_in_range.
  rewrite align_end_code by apply wrap_in_range.
  unfold Word.add.
  destruct (Z.leb_spec (round_down (Word.wrap (b + s)))
              (Word.wrap (round_up (Word.wrap (b + RESERVED_PREFIX))))),
           (Z.ltb_spec (Word.wrap (round_up (Word.wrap (b + RESERVED_PREFIX))))
              (round_down (Word.wrap (b + s))));
    try reflexivity; lia.
Qed.

(** Before a reservation commits, the bounds the code works with are the
    ones the specification's precedence prescribes. *)
Lemma effective_bounds_spec sym st :
  state_inv st -> marker_ok sym -> s_reserved st = false ->
  effective_bounds sym st = spec_bounds (explicit_bounds st) sym.
Proof.
  intros Hi Hm Hres. unfold explicit_bounds, spec_bounds.
  destruct (s_explicit_bounds_set st) eqn:Hex.
  - now apply effective_bounds_explicit.
  - rewrite effective_bounds_default by assumption.
    destruct sym as [a |]; cbn [compute_ram_end_from_linker].
    + destruct (Z.eqb_spec a 0) as [-> | Hne]; [reflexivity |].
      cbn [negb andb]. reflexivity.
    + reflexivity.
Qed.

(** A call that does not zero, from a state without a reservation. *)
Lemma reserve_no_zeroing L fuel sym st m :
  s_reserved st = false ->
  reserve_all_except_first_8kb L fuel sym false st m =
    match usable_region (fst (effective_bounds sym st))
                        (snd (effective_bounds sym st)) with
    | None => Some (false, st, m)
    | Some r => Some (true, commit st r, m)
    end.
Proof.
  intros Hres. rewrite reserve_phases, Hres.
  now destruct (usable_region _ _).
Qed.

(** What any returning call from a state without a reservation yields,
    against the region of its effective bounds. *)
Lemma reserve_outcome L fuel sym zero_memory st m ret st' m' :
  s_reserved st = false ->
  reserve_all_except_first_8kb L fuel sym zero_memory st m
    = Some (ret, st', m') ->
  match usable_region (fst (effective_bounds sym st))
                      (snd (effective_bounds sym st)) with
  | None => ret = false /\ st' = st /\ m' = m
  | Some r =>
      ret = true /\
      (zero_memory = false \/ region_avoids_statics L r = true ->
       st' = commit st r)
  end.
Proof.
  intros Hres H. pose proof H as H'.
  apply reserve_cases in H
    as [(Hres' & _) | [(_ & -> & -> & -> & Hu)
                      | (_ & -> & r & st2 & Hu & Hz & ->)]];
    [congruence | |].
  - rewrite Hu. auto.
  - rewrite Hu. split; [reflexivity |]. intros Hsafe.
    now apply (reserve_commit_state L fuel sym zero_memory st m _ m' r).
Qed.

(** C1: precedence of the sources of the RAM bounds.  A call from a
    reachable state without a reservation works with exactly the bounds
    the specification's precedence gives ([spec_bounds]: the explicit
    bounds if [set_ram_bounds] was called, else the marker above the
    compile-time base, else the compile-time defaults): without zeroing
    it returns [false] when their region is empty and otherwise commits
    their region; with any [zero_memory] the flag it returns is the same
    and so is the region it commits (for a zeroing call, when the loop
    does not run over the variables).  After [set_ram_bounds b s] the
    bounds are [(b, s)] as they are, whatever the marker is. *)
Theorem C1_bounds_precedence L fuel sym st m :
  Reachable L sym st -> marker_ok sym -> s_reserved st = false ->
  reserve_all_except_first_8kb L fuel sym false st m =
    match spec_region (fst (spec_bounds (explicit_bounds st) sym))
                      (snd (spec_bounds (explicit_bounds st) sym)) with
    | None => Some (false, st, m)
    | Some r => Some (true, commit st r, m)
    end /\
  (forall zero_memory ret st' m',
     reserve_all_except_first_8kb L fuel sym zero_memory st m
       = Some (ret, st', m') ->
     match spec_region (fst (spec_bounds (explicit_bounds st) sym))
                       (snd (spec_bounds (explicit_bounds st) sym)) with
     | None => ret = false /\ st' = st /\ m' = m
     | Some r =>
         ret = true /\
         (zero_memory = false \/ region_avoids_statics L r = true ->
          get_reserved_region st' = r)
     end) /\
  (forall b s sym',
     reserve_all_except_first_8kb L fuel sym' false (set_ram_bounds b s st) m =
       match spec_region b s with
       | None => Some (false, set_ram_bounds b s st, m)
       | Some r => Some (true, commit (set_ram_bounds b s st) r, m)
       end).
Proof.
  intros Hreach Hm Hres. apply reachable_inv in Hreach.
  pose proof (effective_bounds_spec sym st Hreach Hm Hres) as Heb.
  split; [| split].
  - rewrite reserve_no_zeroing, usable_region_spec, Heb by assumption.
    reflexivity.
  - intros z ret st' m' H.
    pose proof (reserve_outcome L fuel sym z st m ret st' m' Hres H) as Ho.
    rewrite usable_region_spec, Heb in Ho.
    destruct (spec_region _ _) as [r |]; [| exact Ho].
    destruct Ho as [Hret Hst]. split; [exact Hret |].
    intros Hsafe. rewrite (Hst Hsafe). reflexivity.
  - intros b s sym'.
    rewrite reserve_no_zeroing by exact Hres.
    rewrite effective_bounds_explicit by reflexivity.
    cbn [fst snd set_ram_bounds s_ram_base s_ram_size].
    rewrite usable_region_spec. reflexivity.
Qed.

Lemma C1_bounds_precedence_witness :
  Reachable example_layout (Some 0x40000000) initial_state /\
  marker_ok (Some 0x40000000) /\
  s_reserved initial_state = false /\
  reserve_all_except_first_8kb example_layout 0 (Some 0x40000000) false
    initial_state stale_mem
  = Some (true,
          commit initial_state {| start := 0x3F802000; end_ := 0x40000000 |},
          stale_mem) /\
  reserve_all_except_first_8kb example_layout 0 (Some 0x40000000) false
    (set_ram_bounds 0x1000 0x3000 initial_state) stale_mem
  = Some (true,
          commit (set_ram_bounds 0x1000 0x3000 initial_state)
            {| start := 0x3000; end_ := 0x4000 |},
          stale_mem).
Proof.
  assert (Hr : Reachable example_layout (Some 0x40000000) initial_state)
    by apply steps_refl.
  assert (Hm : marker_ok (Some 0x40000000)) by (vm_compute; split; congruence).
  destruct (C1_bounds_precedence example_layout 0 (Some 0x40000000)
              initial_state stale_mem Hr Hm eq_refl) as (H1 & _ & H3).
  split; [exact Hr |]. split; [exact Hm |]. split; [reflexivity |].
  split; [exact H1 |].
  exact (H3 0x1000 0x3000 (Some 0x40000000)).
Defined.

(** C5: marker fallback.  From a reachable state without explicit bounds
    and without a reservation, a marker that is absent, is address zero,
    or is not above the compile-time base is the same as no marker: the
    call works with [DEFAULT_RAM_BASE] and [DEFAULT_RAM_SIZE], commits
    [[DEFAULT_RAM_BASE + RESERVED_PREFIX, DEFAULT_RAM_BASE +
    DEFAULT_RAM_SIZE)], and for every [zero_memory] is the call made
    with no marker.  A marker [a] strictly above the base makes it work
    with base [DEFAULT_RAM_BASE] and size [a - DEFAULT_RAM_BASE]: it
    returns [false] when their region is empty and otherwise commits
    their region. *)
Theorem C5_marker_fallback L fuel sym st m :
  Reachable L sym st -> marker_ok sym ->
  s_explicit_bounds_set st = false -> s_reserved st = false ->
  ((sym = None \/ sym = Some 0 \/
    exists a, sym = Some a /\ a <= DEFAULT_RAM_BASE) ->
   reserve_all_except_first_8kb L fuel sym false st m
   = Some (true,
           commit st {| start := DEFAULT_RAM_BASE + RESERVED_PREFIX;
                        end_ := DEFAULT_RAM_BASE + DEFAULT_RAM_SIZE |},
           m) /\
   forall zero_memory,
     reserve_all_except_first_8kb L fuel sym zero_memory st m =
     reserve_all_except_first_8kb L fuel None zero_memory st m) /\
  (forall a, sym = Some a -> DEFAULT_RAM_BASE < a ->
   reserve_all_except_first_8kb L fuel sym false st m =
     match spec_region DEFAULT_RAM_BASE (a - DEFAULT_RAM_BASE) with
     | None => Some (false, st, m)
     | Some r => Some (true, commit st r, m)
     end /\
   forall zero_memory ret st' m',
     reserve_all_except_first_8kb L fuel sym zero_memory st m
       = Some (ret, st', m') ->
     match spec_region DEFAULT_RAM_BASE (a - DEFAULT_RAM_BASE) with
     | None => ret = false /\ st' = st /\ m' = m
     | Some r =>
         ret = true /\
         (zero_memory = false \/ region_avoids_statics L r = true ->
          get_reserved_region st' = r)
     end).
Proof.
  intros Hreach Hm Hex Hres. apply reachable_inv in Hreach.
  assert (Hnone : effective_bounds None st = (DEFAULT_RAM_BASE, DEFAULT_RAM_SIZE)).
  { rewrite effective_bounds_default by (cbn; auto). reflexivity. }
  split.
  - intros Hcase.
    assert (Hsym : effective_bounds sym st = (DEFAULT_RAM_BASE, DEFAULT_RAM_SIZE)).
    { rewrite effective_bounds_default by assumption.
      assert (Hle : compute_ram_end_from_linker sym <= DEFAULT_RAM_BASE).
      { destruct Hcase as [-> | [-> | (a & -> & Ha)]]; cbn;
          try (unfold DEFAULT_RAM_BASE; lia).
        destruct (Z.eqb_spec a 0); [unfold DEFAULT_RAM_BASE; lia | exact Ha]. }
      apply Z.ltb_ge in Hle. now rewrite Hle. }
    split.
    + rewrite reserve_no_zeroing, Hsym by assumption. reflexivity.
    + intros z. apply reserve_same_bounds. now rewrite Hsym, Hnone.
  - intros a -> Ha.
    assert (Hsym : effective_bounds (Some a) st
                   = (DEFAULT_RAM_BASE, a - DEFAULT_RAM_BASE)).
    { rewrite effective_bounds_default by assumption.
      cbn [compute_ram_end_from_linker].
      assert (Hne : (a =? 0) = false)
        by (apply Z.eqb_neq; unfold DEFAULT_RAM_BASE in Ha; lia).
      rewrite Hne. apply Z.ltb_lt in Ha. now rewrite Ha. }
    split.
    + rewrite reserve_no_zeroing, Hsym, usable_region_spec by assumption.
      reflexivity.
    + intros z ret st' m' H.
      pose proof (reserve_outcome L fuel (Some a) z st m ret st' m' Hres H)
        as Ho.
      rewrite Hsym, usable_region_spec in Ho. cbn [fst snd] in Ho.
      destruct (spec_region _ _) as [r |]; [| exact Ho].
      destruct Ho as [Hret Hst]. split; [exact Hret |].
      intros Hsafe. rewrite (Hst Hsafe). reflexivity.
Qed.

Lemma C5_marker_fallback_witness :
  Reachable example_layout (Some 0x3F800000) initial_state /\
  marker_ok (Some 0x3F800000) /\
  s_explicit_bounds_set initial_state = false /\
  s_reserved initial_state = false /\
  reserve_all_except_first_8kb example_layout 0 (Some 0x3F800000) false
    initial_state stale_mem
  = Some (true,
          commit initial_state
            {| start := DEFAULT_RAM_BASE + RESERVED_PREFIX;
               end_ := DEFAULT_RAM_BASE + DEFAULT_RAM_SIZE |},
          stale_mem).
Proof.
  assert (Hr : Reachable example_layout (Some 0x3F800000) initial_state)
    by apply steps_refl.
  assert (Hm : marker_ok (Some 0x3F800000)) by (vm_compute; split; congruence).
  split; [exact Hr |]. split; [exact Hm |]. split; [reflexivity |].
  split; [reflexivity |].
  apply (C5_marker_fallback example_layout 0 (Some 0x3F800000) initial_state
           stale_mem Hr Hm eq_refl eq_refl).
  right. right. exists 0x3F800000. split; [reflexivity |].
  unfold DEFAULT_RAM_BASE. lia.
Defined.

(** ** Idempotence and failure *)


(** C2: idempotence.  In every state in which a reservation has committed,
    a further call returns [true], with any fuel, marker and
    [zero_memory], and leaves the whole state (the committed region with
    it) and the whole memory as they were. *)
Theorem C2_reserve_idempotent L fuel sym zero_memory st m :
  s_reserved st = true ->
  reserve_all_except_first_8kb L fuel sym zero_memory st m
    = Some (true, st, m) /\
  (forall st1 m1,
     reserve_all_except_first_8kb L fuel sym zero_memory st m
       = Some (true, st1, m1) ->
     get_reserved_region st1 = get_reserved_region st /\ m1 = m).
Proof.
  intros Hres. unfold reserve_all_except_first_8kb. rewrite Hres.
  split; [reflexivity |]. intros st1 m1 [= <- <-]. auto.
Qed.

Lemma C2_reserve_idempotent_witness :
  s_reserved (commit (set_ram_bounds 0x1000 (8192 + 16) initial_state)
                {| start := 0x3000; end_ := 0x3010 |}) = true /\
  reserve_all_except_first_8kb example_layout 0 (Some 0x40000000) true
    (commit (set_ram_bounds 0x1000 (8192 + 16) initial_state)
       {| start := 0x3000; end_ := 0x3010 |}) stale_mem =
  Some (true,
        commit (set_ram_bounds 0x1000 (8192 + 16) initial_state)
          {| start := 0x3000; end_ := 0x3010 |},
        stale_mem).
Proof.
  split; [reflexivity |].
  apply (C2_reserve_idempotent example_layout 0 (Some 0x40000000) true
           (commit (set_ram_bounds 0x1000 (8192 + 16) initial_state)
              {| start := 0x3000; end_ := 0x3010 |}) stale_mem).
  reflexivity.
Defined.

(** Explicit bounds whose region survives the checks make the next call
    succeed, from any state without a reservation; without zeroing the
    result is the commit, with the memory as it was. *)
Lemma reserve_explicit_success L fuel sym zero_memory st m b s r :
  s_reserved st = false ->
  usable_region b s = Some r ->
  (words_between (start r) (end_ r) <= fuel)%nat ->
  exists st2 m',
    reserve_all_except_first_8kb L fuel sym zero_memory
      (set_ram_bounds b s st) m
    = Some (true, st2, m') /\
    (zero_memory = false ->
     st2 = commit (set_ram_bounds b s st) r /\ m' = m).
Proof.
  intros Hres Hu Hf. rewrite reserve_phases.
  rewrite effective_bounds_explicit by reflexivity.
  cbn [s_reserved set_ram_bounds fst snd s_ram_base s_ram_size].
  rewrite Hres, Hu.
  destruct zero_memory.
  - apply usable_region_aligned in Hu as (Hs & He & H0 & Hlt & Hb).
    destruct (zero_loop_terminates L (end_ r) fuel He ltac:(lia) (start r)
                (record_region (set_ram_bounds b s st) r) m Hs H0 Hf)
      as (st2 & m' & ->).
    do 2 eexists. split; [reflexivity | discriminate].
  - do 2 eexists. split; [reflexivity |]. intros _. split; reflexivity.
Qed.

(** C3: commit-or-nothing.  When the call returns [false] the state (so
    [s_reserved_region] and [s_reserved]) and the memory are those before
    the call; the cause is a size not above [RESERVED_PREFIX] or an
    interval that is empty after alignment; and the failure is not final:
    [set_ram_bounds] with any bounds that pass the checks, and such bounds
    exist, followed by a new call, succeeds (and without zeroing leaves
    exactly the commit). *)
Theorem C3_failure_atomic L fuel sym zero_memory st m st' m' :
  reserve_all_except_first_8kb L fuel sym zero_memory st m
    = Some (false, st', m') ->
  st' = st /\ m' = m /\
  s_reserved st' = false /\
  (snd (effective_bounds sym st) <= RESERVED_PREFIX \/
   round_down (Word.add (fst (effective_bounds sym st))
                        (snd (effective_bounds sym st)))
   <= Word.wrap (round_up (Word.add (fst (effective_bounds sym st))
                                    RESERVED_PREFIX))) /\
  (forall b s r fuel' sym' zero_memory' m2,
     usable_region b s = Some r ->
     (words_between (start r) (end_ r) <= fuel')%nat ->
     exists st2 m2',
       reserve_all_except_first_8kb L fuel' sym' zero_memory'
         (set_ram_bounds b s st') m2
       = Some (true, st2, m2') /\
       (zero_memory' = false ->
        st2 = commit (set_ram_bounds b s st') r /\ m2' = m2)) /\
  (exists b s r,
     Word.in_range b /\ Word.in_range s /\ usable_region b s = Some r).
Proof.
  intros H. apply reserve_cases in H
    as [(_ & [=] & _) | [(Hres & _ & -> & -> & Hu) | (_ & [=] & _)]].
  split; [reflexivity |]. split; [reflexivity |]. split; [exact Hres |].
  split; [now apply usable_region_none |]. split.
  - intros b s r fuel' sym' z' m2 Hr Hf.
    now apply reserve_explicit_success.
  - exists DEFAULT_RAM_BASE, (RESERVED_PREFIX + 4),
      {| start := DEFAULT_RAM_BASE + RESERVED_PREFIX;
         end_ := DEFAULT_RAM_BASE + RESERVED_PREFIX + 4 |}.
    unfold Word.in_range. rewrite modulus_value.
    split; [cbv; split; congruence |]. split; [cbv; split; congruence |].
    reflexivity.
Qed.

Lemma C3_failure_atomic_witness :
  reserve_all_except_first_8kb example_layout 0 None true
    (set_ram_bounds 0x1000 8192 initial_state) stale_mem
  = Some (false, set_ram_bounds 0x1000 8192 initial_state, stale_mem) /\
  exists st2 m2,
    reserve_all_except_first_8kb example_layout 4 None true
      (set_ram_bounds 0x1000 (8192 + 16)
         (set_ram_bounds 0x1000 8192 initial_state)) stale_mem
    = Some (true, st2, m2).
Proof.
  assert (H : reserve_all_except_first_8kb example_layout 0 None true
                (set_ram_bounds 0x1000 8192 initial_state) stale_mem
              = Some (false, set_ram_bounds 0x1000 8192 initial_state, stale_mem))
    by reflexivity.
  split; [exact H |].
  destruct (C3_failure_atomic _ _ _ _ _ _ _ _ H) as (_ & _ & _ & _ & Hretry & _).
  destruct (Hretry 0x1000 (8192 + 16) {| start := 0x3000; end_ := 0x3010 |}
              4%nat None true stale_mem) as (st2 & m2 & H2 & _).
  - reflexivity.
  - vm_compute. repeat constructor.
  - exists st2, m2. exact H2.
Defined.

(** ** The stored bounds *)

(** C10, as stated, fails: with the variables laid out as in
    [example_layout], the zeroing call for the bounds [0x8049000],
    [0x2004] commits the four bytes of [s_ram_base] itself and returns
    [true] with [s_ram_base] zeroed. *)
Lemma C10_counterexample :
  exists m',
    reserve_all_except_first_8kb example_layout 1 None true
      (set_ram_bounds 0x8049000 0x2004 initial_state) stale_mem
    = Some (true,
            {| s_ram_base := 0;
               s_ram_size := 0x2004;
               s_reserved_region := {| start := 0x804B000; end_ := 0x804B004 |};
               s_reserved := true;
               s_explicit_bounds_set := true |},
            m') /\
    s_ram_base (set_ram_bounds 0x8049000 0x2004 initial_state) = 0x8049000.
Proof. eexists. split; reflexivity. Qed.

(** C10, amended: a call that does not zero, or whose region contains
    none of the variables, never writes the stored bounds.  Whatever it
    returns, [s_ram_base], [s_ram_size] and [s_explicit_bounds_set] are
    those before the call, also when the size it used came from the
    marker, so the next call derives the same effective bounds from the
    same stored state and marker; [set_ram_bounds] is the one function
    that writes them. *)
Theorem C10_reserve_keeps_bounds L fuel sym zero_memory st m ret st' m' :
  zero_memory = false \/ safe_to_zero L sym st = true ->
  reserve_all_except_first_8kb L fuel sym zero_memory st m
    = Some (ret, st', m') ->
  s_ram_base st' = s_ram_base st /\
  s_ram_size st' = s_ram_size st /\
  s_explicit_bounds_set st' = s_explicit_bounds_set st /\
  effective_bounds sym st' = effective_bounds sym st /\
  (forall b s,
     s_ram_base (set_ram_bounds b s st) = b /\
     s_ram_size (set_ram_bounds b s st) = s).
Proof.
  intros Hsafe H. pose proof H as H'.
  apply reserve_cases in H
    as [(_ & _ & -> & _) | [(_ & _ & -> & _)
                           | (Hres & -> & r & st2 & Hu & _ & _)]];
    try (repeat split; reflexivity).
  assert (Hst : st' = commit st r).
  { apply (reserve_commit_state L fuel sym zero_memory st m st' m' r);
      try assumption.
    unfold safe_to_zero in Hsafe. now rewrite Hu in Hsafe. }
  subst st'. repeat split; reflexivity.
Qed.

Lemma C10_reserve_keeps_bounds_witness :
  safe_to_zero example_layout (Some 0x3F802010) initial_state = true /\
  exists st' m',
    reserve_all_except_first_8kb example_layout 4 (Some 0x3F802010) true
      initial_state stale_mem
    = Some (true, st', m') /\
    effective_bounds (Some 0x3F802010) initial_state
      = (DEFAULT_RAM_BASE, 0x2010) /\
    s_ram_size st' = DEFAULT_RAM_SIZE.
Proof.
  assert (Hsafe : safe_to_zero example_layout (Some 0x3F802010) initial_state
                  = true) by reflexivity.
  split; [exact Hsafe |].
  destruct (reserve_total example_layout 4 (Some 0x3F802010) true
              initial_state stale_mem) as (ret & st' & m' & H).
  - vm_compute. repeat constructor.
  - assert (Hret : ret = true).
    { pose proof (reserve_outcome example_layout 4 (Some 0x3F802010) true
                    initial_state stale_mem ret st' m' eq_refl H) as Ho.
      change (usable_region _ _)
        with (Some {| start := 0x3F802000; end_ := 0x3F802010 |}) in Ho.
      apply Ho. }
    subst ret. exists st', m'. split; [exact H |]. split; [reflexivity |].
    destruct (C10_reserve_keeps_bounds _ _ _ _ _ _ _ _ _ (or_intror Hsafe) H)
      as (_ & Hs & _).
    exact Hs.
Defined.

(** ** Reading the region *)

Lemma set_ram_bounds_keeps_region b s st :
  s_reserved_region (set_ram_bounds b s st) = s_reserved_region st /\
  s_reserved (set_ram_bounds b s st) = s_reserved st.
Proof. split; reflexivity. Qed.

Lemma step_keeps_committed L sym st st' :
  Step L sym st st' -> s_reserved st = true ->
  s_reserved st' = true /\ s_reserved_region st' = s_reserved_region st.
Proof.
  intros HS Hres. destruct HS as [st b s _ _ | st fuel z m ret st' m' Hr].
  - cbn. auto.
  - apply reserve_cases in Hr
      as [(_ & _ & -> & _) | [(Hres' & _) | (Hres' & _)]];
      [auto | congruence | congruence].
Qed.

Lemma steps_keep_committed L sym st st' :
  Steps L sym st st' -> s_reserved st = true ->
  s_reserved st' = true /\ s_reserved_region st' = s_reserved_region st.
Proof.
  induction 1 as [| st0 st1 st2 _ IH HS]; intros Hres; [auto |].
  destruct (IH Hres) as [H1 H2].
  destruct (step_keeps_committed _ _ _ _ HS H1) as [H3 H4].
  split; [exact H3 | congruence].
Qed.

(** C8: [get_reserved_region] reads [s_reserved_region] and nothing else.
    It returns [{0,0}] in every reachable state without a committed
    reservation; once a reservation has committed it returns the same
    interval after any further calls of [set_ram_bounds] and
    [reserve_all_except_first_8kb]; and [set_ram_bounds] never changes
    the region it returns. *)
Theorem C8_get_reserved_region L sym st st' :
  Reachable L sym st -> Steps L sym st st' ->
  get_reserved_region st = s_reserved_region st /\
  (s_reserved st = false ->
   get_reserved_region st = {| start := 0; end_ := 0 |}) /\
  (s_reserved st = true ->
   s_reserved st' = true /\
   get_reserved_region st' = get_reserved_region st) /\
  (forall b s,
     get_reserved_region (set_ram_bounds b s st) = get_reserved_region st /\
     s_reserved_region (set_ram_bounds b s st) = s_reserved_region st /\
     s_reserved (set_ram_bounds b s st) = s_reserved st).
Proof.
  intros Hreach Hsteps.
  apply reachable_inv in Hreach.
  unfold get_reserved_region.
  split; [reflexivity |]. split; [| split].
  - intros Hres. now destruct (Hreach Hres) as (_ & _ & _ & Hz).
  - intros Hres. now apply steps_keep_committed with (L := L) (sym := sym).
  - intros b s. repeat split.
Qed.

Lemma C8_get_reserved_region_witness :
  Reachable example_layout None
    (commit (set_ram_bounds 0x1000 (8192 + 16) initial_state)
       {| start := 0x3000; end_ := 0x3010 |}) /\
  Steps example_layout None
    (commit (set_ram_bounds 0x1000 (8192 + 16) initial_state)
       {| start := 0x3000; end_ := 0x3010 |})
    (set_ram_bounds 0x5000 0x8000
       (commit (set_ram_bounds 0x1000 (8192 + 16) initial_state)
          {| start := 0x3000; end_ := 0x3010 |})) /\
  get_reserved_region
    (set_ram_bounds 0x5000 0x8000
       (commit (set_ram_bounds 0x1000 (8192 + 16) initial_state)
          {| start := 0x3000; end_ := 0x3010 |}))
  = {| start := 0x3000; end_ := 0x3010 |}.
Proof.
  assert (Hr : Reachable example_layout None
                 (commit (set_ram_bounds 0x1000 (8192 + 16) initial_state)
                    {| start := 0x3000; end_ := 0x3010 |})).
  { eapply steps_step.
    - eapply steps_step; [apply steps_refl |].
      apply (step_set_ram_bounds example_layout None initial_state
               0x1000 (8192 + 16));
        vm_compute; split; congruence.
    - apply (step_reserve example_layout None _ 0%nat false stale_mem true _
               stale_mem).
      reflexivity. }
  assert (Hs : Steps example_layout None
                 (commit (set_ram_bounds 0x1000 (8192 + 16) initial_state)
                    {| start := 0x3000; end_ := 0x3010 |})
                 (set_ram_bounds 0x5000 0x8000
                    (commit (set_ram_bounds 0x1000 (8192 + 16) initial_state)
                       {| start := 0x3000; end_ := 0x3010 |}))).
  { eapply steps_step; [apply steps_refl |].
    apply step_set_ram_bounds; vm_compute; split; congruence. }
  split; [exact Hr |]. split; [exact Hs |].
  destruct (C8_get_reserved_region example_layout None _ _ Hr Hs)
    as (_ & _ & Hc & _).
  destruct (Hc eq_refl) as [_ Hreg]. exact Hreg.
Defined.

(** ** The committed region *)




(** C6: the code breaks containment, and with it the header's promise
    that the first 8 KiB stay unreserved.  For the bounds
    [base = 0xFFFFDFFD], [size = 8194], whose RAM
    [[base, base + size)] lies inside the address space, the start
    [base + RESERVED_PREFIX = 0xFFFFFFFD] is rounded up past [2^32] and
    wraps to 0, the check [usable_start >= usable_end] does not see it,
    and the call returns [true] with the region [[0, 0xFFFFFFFC)]: it
    starts below [base + RESERVED_PREFIX] and contains the first byte
    of the RAM. *)
Theorem C6_wrapped_start_breaks_containment L :
  Word.in_range 0xFFFFDFFD /\ Word.in_range 8194 /\
  0xFFFFDFFD + 8194 < Word.modulus /\
  reserve_all_except_first_8kb L 0 None false
    (set_ram_bounds 0xFFFFDFFD 8194 initial_state) stale_mem
  = Some (true,
          commit (set_ram_bounds 0xFFFFDFFD 8194 initial_state)
            {| start := 0; end_ := 0xFFFFFFFC |},
          stale_mem) /\
  ~ (0xFFFFDFFD + RESERVED_PREFIX <= 0) /\
  0 <= 0xFFFFDFFD < 0xFFFFFFFC.
Proof.
  split; [vm_compute; split; congruence |].
  split; [vm_compute; split; congruence |].
  split; [reflexivity |]. split; [reflexivity |].
  split; [unfold RESERVED_PREFIX; lia | lia].
Qed.

(** ** Zeroing *)

(** A word whose four bytes are zero reads as zero. *)
Lemma load32_zero (m : Mem) (a : Z) :
  0 <= a -> a + 4 <= Word.modulus ->
  m a = 0 -> m (a + 1) = 0 -> m (a + 2) = 0 -> m (a + 3) = 0 ->
  load32 m a = 0.
Proof.
  intros H0 Hb Ha Ha1 Ha2 Ha3. rewrite modulus_value in Hb.
  unfold load32, Word.add.
  rewrite !wrap_small by (unfold Word.in_range; rewrite modulus_value; lia).
  rewrite Ha, Ha1, Ha2, Ha3. reflexivity.
Qed.

(** Inside an interval that contains none of the variables the machine
    reads the plain memory. *)
Lemma static_byte_avoided L st lo hi x :
  Avoids L lo hi -> lo <= x < hi -> static_byte L st x = None.
Proof.
  intros (H1 & H2 & H3 & H4 & H5) Hx. unfold static_byte.
  repeat match goal with
         | |- context [?a <=? ?b] => destruct (Z.leb_spec a b)
         | |- context [?a <? ?b] => destruct (Z.ltb_spec a b)
         | |- context [?a =? ?b] => destruct (Z.eqb_spec a b)
         end; cbn [andb]; try reflexivity; lia.
Qed.

(** Away from the bytes a commit stores to, the variables read the same
    before and after it. *)
Lemma static_byte_commit L st r x :
  commit_byte L x = false ->
  static_byte L (commit st r) x = static_byte L st x.
Proof.
  unfold commit_byte, static_byte, commit.
  cbn [s_ram_base s_ram_size s_reserved_region s_reserved
       s_explicit_bounds_set].
  intros H. apply orb_false_iff in H as [Hreg Hres].
  rewrite Hres.
  destruct ((addr_s_ram_base L <=? x) && (x <? addr_s_ram_base L + 4));
    [reflexivity |].
  destruct ((addr_s_ram_size L <=? x) && (x <? addr_s_ram_size L + 4));
    [reflexivity |].
  assert (H1 : (addr_s_reserved_region L <=? x)
               && (x <? addr_s_reserved_region L + 4) = false).
  { apply andb_false_iff in Hreg.
    apply andb_false_iff.
    destruct Hreg as [Hl | Hh]; [left; exact Hl |].
    right. apply Z.ltb_ge in Hh. apply Z.ltb_ge. lia. }
  assert (H2 : (addr_s_reserved_region L + 4 <=? x)
               && (x <? addr_s_reserved_region L + 8) = false).
  { apply andb_false_iff in Hreg.
    apply andb_false_iff.
    destruct Hreg as [Hl | Hh]; [| right; exact Hh].
    left. apply Z.leb_gt in Hl. apply Z.leb_gt. lia. }
  rewrite H1, H2. reflexivity.
Qed.

(** C7, as stated, fails: with the variables laid out as in
    [example_layout], the zeroing call for the bounds [0x8049010],
    [0x2004] commits the word [[0x804B010, 0x804B014)] that holds
    [s_reserved]; the loop clears it, the store [s_reserved = true] that
    follows writes it again, and after the call that word of the region
    reads 1. *)
Lemma C7_counterexample :
  exists st' m',
    reserve_all_except_first_8kb example_layout 1 None true
      (set_ram_bounds 0x8049010 0x2004 initial_state) stale_mem
    = Some (true, st', m') /\
    get_reserved_region st' = {| start := 0x804B010; end_ := 0x804B014 |} /\
    load32 (machine_mem example_layout st' m') 0x804B010 = 1.
Proof.
  do 2 eexists. split; [reflexivity |]. split; reflexivity.
Qed.

(** C7, amended: zeroing and its frame.  A call with
    [zero_memory = true] from a state without a reservation, whose region
    contains none of the variables, returns once the fuel covers the
    words of the region; and when it returns [true], having committed
    [[start, end)], every word at [start], [start + 4], ..., [end - 4] of
    the machine's memory reads as zero (every byte of the region is
    zero), and every byte outside [[start, end)] is the one before the
    call, except the bytes of [s_reserved_region] and [s_reserved], which
    the call itself stores to. *)
Theorem C7_zeroing L fuel sym st m :
  s_reserved st = false ->
  safe_to_zero L sym st = true ->
  ((enough_fuel sym st <= fuel)%nat ->
   exists ret st' m',
     reserve_all_except_first_8kb L fuel sym true st m
       = Some (ret, st', m')) /\
  (forall st' m',
     reserve_all_except_first_8kb L fuel sym true st m
       = Some (true, st', m') ->
     (forall k, 0 <= k ->
        start (get_reserved_region st') + 4 * k
          < end_ (get_reserved_region st') ->
        load32 (machine_mem L st' m')
          (start (get_reserved_region st') + 4 * k) = 0) /\
     (forall a,
        start (get_reserved_region st') <= a < end_ (get_reserved_region st') ->
        machine_mem L st' m' a = 0) /\
     (forall a,
        ~ (start (get_reserved_region st') <= a
           < end_ (get_reserved_region st')) ->
        commit_byte L a = false ->
        machine_mem L st' m' a = machine_mem L st m a)).
Proof.
  intros Hres Hsafe. split; [apply reserve_total |].
  intros st' m' H. pose proof H as H'.
  apply reserve_cases in H
    as [(Hres' & _) | [(_ & [=] & _) | (_ & _ & r & st2 & Hu & Hz & _)]];
    [congruence |].
  unfold safe_to_zero in Hsafe. rewrite Hu in Hsafe.
  assert (Hst : st' = commit st r).
  { apply (reserve_commit_state L fuel sym true st m st' m' r); auto. }
  apply region_avoids_statics_spec in Hsafe.
  subst st'. unfold get_reserved_region. cbn [commit s_reserved_region].
  apply usable_region_aligned in Hu as (Hs & He & H0 & Hlt & Hb).
  pose proof (zero_loop_post L (end_ r) fuel He ltac:(lia) (start r)
                _ m st2 m' Hs H0 Hz) as Hpost.
  assert (Hin : forall a, start r <= a < end_ r ->
                          machine_mem L (commit st r) m' a = 0).
  { intros a Ha. unfold machine_mem.
    rewrite (static_byte_avoided L _ (start r) (end_ r) a Hsafe Ha).
    rewrite Hpost.
    destruct (Z.leb_spec (start r) a), (Z.ltb_spec a (end_ r));
      cbn [andb]; try reflexivity; lia. }
  split; [| split].
  - intros k Hk Hlt'.
    pose proof (Z.div_mod (start r) 4 ltac:(lia)).
    pose proof (Z.div_mod (end_ r) 4 ltac:(lia)).
    apply load32_zero; try lia; apply Hin; lia.
  - exact Hin.
  - intros a Ha Hc. unfold machine_mem.
    rewrite static_byte_commit by exact Hc.
    destruct (static_byte L st a); [reflexivity |].
    rewrite Hpost.
    destruct (Z.leb_spec (start r) a), (Z.ltb_spec a (end_ r));
      cbn [andb]; try reflexivity; lia.
Qed.

Lemma C7_zeroing_witness :
  s_reserved (set_ram_bounds 0x1000 (8192 + 16) initial_state) = false /\
  safe_to_zero example_layout None
    (set_ram_bounds 0x1000 (8192 + 16) initial_state) = true /\
  exists st' m',
    reserve_all_except_first_8kb example_layout 4 None true
      (set_ram_bounds 0x1000 (8192 + 16) initial_state) stale_mem
    = Some (true, st', m') /\
    get_reserved_region st' = {| start := 0x3000; end_ := 0x3010 |} /\
    load32 (machine_mem example_layout st' m') 0x300C = 0 /\
    machine_mem example_layout st' m' 0x2FFF = 0xAA /\
    machine_mem example_layout st' m' 0x3010 = 0xAA.
Proof.
  assert (Hres : s_reserved (set_ram_bounds 0x1000 (8192 + 16) initial_state)
                 = false) by reflexivity.
  assert (Hsafe : safe_to_zero example_layout None
                    (set_ram_bounds 0x1000 (8192 + 16) initial_state) = true)
    by reflexivity.
  split; [exact Hres |]. split; [exact Hsafe |].
  destruct (C7_zeroing example_layout 4 None
              (set_ram_bounds 0x1000 (8192 + 16) initial_state) stale_mem
              Hres Hsafe)
    as [Hret Hpost].
  destruct Hret as (ret & st' & m' & H).
  - vm_compute. repeat constructor.
  - pose proof (reserve_outcome example_layout 4 None true
                  (set_ram_bounds 0x1000 (8192 + 16) initial_state) stale_mem
                  ret st' m' Hres H) as Ho.
    change (usable_region _ _)
      with (Some {| start := 0x3000; end_ := 0x3010 |}) in Ho.
    destruct Ho as [-> Hst].
    pose proof (Hst (or_intror eq_refl)) as Hst'.
    exists st', m'.
    destruct (Hpost _ _ H) as (Hw & _ & Hf).
    rewrite Hst' in Hw, Hf.
    split; [exact H |]. split; [rewrite Hst'; reflexivity |].
    rewrite Hst'. split; [| split].
    + apply (Hw 3); [lia | reflexivity].
    + rewrite Hf; [reflexivity | cbn; lia | reflexivity].
    + rewrite Hf; [reflexivity | cbn; lia | reflexivity].
Defined.

(** ** The insufficient-memory boundary *)

(** With a word-aligned base and size and no wrap-around, the usable
    region is exactly [[base + RESERVED_PREFIX, base + size)]. *)
Lemma usable_region_exact b s :
  0 <= b -> b mod 4 = 0 -> s mod 4 = 0 ->
  RESERVED_PREFIX < s -> b + s < Word.modulus ->
  usable_region b s = Some {| start := b + RESERVED_PREFIX; end_ := b + s |}.
Proof.
  intros Hb0 Hbm Hsm Hs Hbs. rewrite modulus_value in Hbs.
  unfold usable_region.
  destruct (Z.leb_spec s RESERVED_PREFIX) as [Hle | _]; [lia |].
  rewrite align_start_code by apply wrap_in_range.
  rewrite align_end_code by apply wrap_in_range.
  unfold RESERVED_PREFIX in *.
  assert (H1 : Word.add b (8 * 1024) = b + 8 * 1024).
  { apply wrap_small. unfold Word.in_range. rewrite modulus_value. lia. }
  assert (H2 : Word.add b s = b + s).
  { apply wrap_small. unfold Word.in_range. rewrite modulus_value. lia. }
  assert (H3 : (b + 8 * 1024) mod 4 = 0).
  { rewrite <- Z.add_mod_idemp_l, Hbm by lia. reflexivity. }
  assert (H4 : (b + s) mod 4 = 0).
  { rewrite Z.add_mod, Hbm, Hsm by lia. reflexivity. }
  rewrite H1, H2, round_up_aligned, round_down_aligned by assumption.
  rewrite wrap_small by (unfold Word.in_range; rewrite modulus_value; lia).
  destruct (Z.leb_spec (b + s) (b + 8 * 1024)); [lia | reflexivity].
Qed.

(** C9, as stated, fails: for the word-aligned base [0xFFFFDFFC] and
    [size = RESERVED_PREFIX + 4] the end [base + size = 2^32] wraps to 0
    and the call returns [false]. *)
Lemma C9_counterexample :
  Word.in_range 0xFFFFDFFC /\ 0xFFFFDFFC mod 4 = 0 /\
  reserve_all_except_first_8kb example_layout 1 None false
    (set_ram_bounds 0xFFFFDFFC (RESERVED_PREFIX + 4) initial_state) stale_mem
  = Some (false,
          set_ram_bounds 0xFFFFDFFC (RESERVED_PREFIX + 4) initial_state,
          stale_mem).
Proof.
  split; [vm_compute; split; congruence |]. split; reflexivity.
Qed.

(** It fails in a second way when the call zeroes: with the variables
    laid out as in [example_layout] and the word-aligned base
    [0x8049008], the four bytes to commit are [s_reserved_region.start];
    the loop clears them and the region read back starts at 0. *)
Lemma boundary_zeroing_over_region_variable :
  exists st' m',
    reserve_all_except_first_8kb example_layout 1 None true
      (set_ram_bounds 0x8049008 (RESERVED_PREFIX + 4) initial_state) stale_mem
    = Some (true, st', m') /\
    get_reserved_region st' = {| start := 0; end_ := 0x804B00C |}.
Proof. do 2 eexists. split; reflexivity. Qed.

(** C9, amended: with an explicitly configured word-aligned base the call
    fails for every [size <= RESERVED_PREFIX], leaving state and memory
    as they were; and for [size = RESERVED_PREFIX + 4], when
    [base + RESERVED_PREFIX + 4 < 2^32] and the call does not zero or the
    four bytes contain none of the variables, it succeeds (one unit of
    fuel covers the zeroing) and commits exactly
    [[base + RESERVED_PREFIX, base + RESERVED_PREFIX + 4)]. *)
Theorem C9_insufficient_memory_boundary L fuel sym zero_memory st m b :
  s_reserved st = false ->
  Word.in_range b -> b mod 4 = 0 ->
  (forall s, s <= RESERVED_PREFIX ->
     reserve_all_except_first_8kb L fuel sym zero_memory
       (set_ram_bounds b s st) m
     = Some (false, set_ram_bounds b s st, m)) /\
  (b + RESERVED_PREFIX + 4 < Word.modulus ->
   zero_memory = false \/
   region_avoids_statics L {| start := b + RESERVED_PREFIX;
                              end_ := b + RESERVED_PREFIX + 4 |} = true ->
   (1 <= fuel)%nat ->
   exists st' m',
     reserve_all_except_first_8kb L fuel sym zero_memory
       (set_ram_bounds b (RESERVED_PREFIX + 4) st) m
     = Some (true, st', m') /\
     st' = commit (set_ram_bounds b (RESERVED_PREFIX + 4) st)
             {| start := b + RESERVED_PREFIX;
                end_ := b + RESERVED_PREFIX + 4 |} /\
     get_reserved_region st'
       = {| start := b + RESERVED_PREFIX; end_ := b + RESERVED_PREFIX + 4 |} /\
     end_ (get_reserved_region st') - start (get_reserved_region st') = 4).
Proof.
  intros Hres Hb Hbm. split.
  - intros s Hs. rewrite reserve_phases.
    rewrite effective_bounds_explicit by reflexivity.
    cbn [s_reserved set_ram_bounds fst snd s_ram_base s_ram_size].
    rewrite Hres. unfold usable_region.
    destruct (Z.leb_spec s RESERVED_PREFIX); [reflexivity | lia].
  - intros Hfit Hsafe Hfuel.
    assert (Hu : usable_region b (RESERVED_PREFIX + 4)
                 = Some {| start := b + RESERVED_PREFIX;
                           end_ := b + (RESERVED_PREFIX + 4) |}).
    { apply usable_region_exact; try assumption.
      - apply Hb.
      - reflexivity.
      - unfold RESERVED_PREFIX. lia.
      - lia. }
    rewrite Z.add_assoc in Hu.
    destruct (reserve_explicit_success L fuel sym zero_memory st m b
                (RESERVED_PREFIX + 4) _ Hres Hu) as (st' & m' & Hm' & _).
    + unfold words_between. cbn [start end_].
      replace (b + RESERVED_PREFIX + 4 - (b + RESERVED_PREFIX)) with 4 by lia.
      exact Hfuel.
    + assert (Hst : st' = commit (set_ram_bounds b (RESERVED_PREFIX + 4) st)
                            {| start := b + RESERVED_PREFIX;
                               end_ := b + RESERVED_PREFIX + 4 |}).
      { apply (reserve_commit_state L fuel sym zero_memory
                 (set_ram_bounds b (RESERVED_PREFIX + 4) st) m st' m');
          assumption. }
      exists st', m'. split; [exact Hm' |]. split; [exact Hst |].
      subst st'. unfold get_reserved_region.
      cbn [commit s_reserved_region start end_].
      split; [reflexivity | lia].
Qed.

Lemma C9_insufficient_memory_boundary_witness :
  s_reserved initial_state = false /\
  Word.in_range 0x1000 /\ 0x1000 mod 4 = 0 /\
  reserve_all_except_first_8kb example_layout 1 None true
    (set_ram_bounds 0x1000 RESERVED_PREFIX initial_state) stale_mem
  = Some (false, set_ram_bounds 0x1000 RESERVED_PREFIX initial_state, stale_mem) /\
  exists st' m',
    reserve_all_except_first_8kb example_layout 1 None true
      (set_ram_bounds 0x1000 (RESERVED_PREFIX + 4) initial_state) stale_mem
    = Some (true, st', m') /\
    get_reserved_region st'
      = {| start := 0x1000 + RESERVED_PREFIX;
           end_ := 0x1000 + RESERVED_PREFIX + 4 |}.
Proof.
  assert (Hres : s_reserved initial_state = false) by reflexivity.
  assert (Hb : Word.in_range 0x1000) by (vm_compute; split; congruence).
  assert (Hbm : 0x1000 mod 4 = 0) by reflexivity.
  split; [exact Hres |]. split; [exact Hb |]. split; [exact Hbm |].
  destruct (C9_insufficient_memory_boundary example_layout 1 None true
              initial_state stale_mem 0x1000 Hres Hb Hbm) as [Hfail Hok].
  split.
  - apply Hfail. unfold RESERVED_PREFIX. lia.
  - destruct Hok as (st' & m' & Hm' & _ & Hreg & _).
    + reflexivity.
    + right. reflexivity.
    + constructor.
    + exists st', m'. split; [exact Hm' | exact Hreg].
Defined.

(** ** Examples *)

(** The example of the specification: [base = 0x1000],
    [size = 8192 + 16] gives the region [[0x3000, 0x3010)]. *)
Example reserve_example_explicit :
  reserve_all_except_first_8kb example_layout 0 None false
    (set_ram_bounds 0x1000 (8192 + 16) initial_state) stale_mem
  = Some (true,
          commit (set_ram_bounds 0x1000 (8192 + 16) initial_state)
            {| start := 0x3000; end_ := 0x3010 |},
          stale_mem).
Proof. reflexivity. Qed.

(** No marker, no explicit bounds: the region is
    [[DEFAULT_RAM_BASE + RESERVED_PREFIX, DEFAULT_RAM_BASE + DEFAULT_RAM_SIZE)]. *)
Example reserve_example_default :
  reserve_all_except_first_8kb example_layout 0 None false
    initial_state stale_mem
  = Some (true,
          commit initial_state
            {| start := DEFAULT_RAM_BASE + RESERVED_PREFIX;
               end_ := DEFAULT_RAM_BASE + DEFAULT_RAM_SIZE |},
          stale_mem).
Proof. reflexivity. Qed.

(** A call that zeroes needs its fuel: with three iterations for a
    four-word region the loop is cut off. *)
Example reserve_example_fuel :
  reserve_all_except_first_8kb example_layout 3 None true
    (set_ram_bounds 0x1000 (8192 + 16) initial_state) stale_mem = None.
Proof. reflexivity. Qed.

(** Both sums can wrap as well: the bounds [0xFFFFF000], [0x3000] commit
    [[0x1000, 0x2000)]. *)
Example reserve_example_wrap :
  reserve_all_except_first_8kb example_layout 0 None false
    (set_ram_bounds 0xFFFFF000 0x3000 initial_state) stale_mem
  = Some (true,
          commit (set_ram_bounds 0xFFFFF000 0x3000 initial_state)
            {| start := 0x1000; end_ := 0x2000 |},
          stale_mem).
Proof. reflexivity. Qed.

(** * Further properties of the memory manager *)

(** ** Region helpers of the header *)

(** [make_region] of 32-bit [base] and [size] is a proper interval
    ([start <= end]) exactly when [base + size] does not wrap, and then
    its length is [size]; when the sum wraps, the end lies below the
    start. *)
Theorem make_region_valid_iff base size :
  Word.in_range base -> Word.in_range size ->
  (start (make_region base size) <= end_ (make_region base size)
   <-> base + size < Word.modulus) /\
  (base + size < Word.modulus ->
   end_ (make_region base size) - start (make_region base size) = size) /\
  (Word.modulus <= base + size ->
   end_ (make_region base size) = base + size - Word.modulus).
Proof.
  unfold Word.in_range, make_region, Word.add, Word.wrap. cbn [start end_].
  rewrite modulus_value. intros Hb Hs.
  destruct (Z_lt_le_dec (base + size) 4294967296) as [Hlt | Hge].
  - rewrite Z.mod_small by lia. repeat split; try lia.
  - assert (Hm : (base + size) mod 4294967296 = base + size - 4294967296)
      by (symmetry; apply Z.mod_unique with (q := 1); lia).
    rewrite Hm. repeat split; try lia.
Qed.

Lemma make_region_valid_iff_witness :
  Word.in_range 0xFFFFF000 /\ Word.in_range 0x3000 /\
  end_ (make_region 0xFFFFF000 0x3000) = 0x2000.
Proof.
  assert (Hb : Word.in_range 0xFFFFF000) by (vm_compute; split; congruence).
  assert (Hs : Word.in_range 0x3000) by (vm_compute; split; congruence).
  split; [exact Hb |]. split; [exact Hs |].
  destruct (make_region_valid_iff 0xFFFFF000 0x3000 Hb Hs) as (_ & _ & H).
  rewrite H; [reflexivity |]. vm_compute. congruence.
Defined.

(** ** Explicit bounds until the reservation *)



(** ** Zeroing and the decision *)

(** Whether the call succeeds does not depend on [zero_memory] nor on
    the memory: when a call returns, the same call without zeroing
    returns the same flag with any fuel, already with none, and leaves
    its memory as it is; the state it leaves is the same too when the
    first call did not zero or its region contains none of the
    variables. *)
Theorem reserve_decision_independent L fuel sym zero_memory st m ret st' m' :
  reserve_all_except_first_8kb L fuel sym zero_memory st m
    = Some (ret, st', m') ->
  forall fuel' m2,
    exists st2,
      reserve_all_except_first_8kb L fuel' sym false st m2
        = Some (ret, st2, m2) /\
      (zero_memory = false \/ safe_to_zero L sym st = true -> st2 = st').
Proof.
  intros H fuel' m2. pose proof H as H'. rewrite reserve_phases.
  apply reserve_cases in H
    as [(Hres & -> & -> & _) | [(Hres & -> & -> & _ & Hu)
                               | (Hres & -> & r & st3 & Hu & _ & _)]];
    rewrite Hres.
  - eexists. split; [reflexivity | reflexivity].
  - rewrite Hu. eexists. split; [reflexivity | reflexivity].
  - rewrite Hu. eexists. split; [reflexivity |].
    intros Hsafe. rewrite mark_record. symmetry.
    apply (reserve_commit_state L fuel sym zero_memory st m st' m' r);
      try assumption.
    unfold safe_to_zero in Hsafe. now rewrite Hu in Hsafe.
Qed.

Lemma reserve_decision_independent_witness :
  exists st' m',
    reserve_all_except_first_8kb example_layout 2 None true
      (set_ram_bounds 0x8049008 0x2008 initial_state) stale_mem
    = Some (true, st', m') /\
    exists st2,
      reserve_all_except_first_8kb example_layout 0 None false
        (set_ram_bounds 0x8049008 0x2008 initial_state) stale_mem
      = Some (true, st2, stale_mem).
Proof.
  assert (H : exists st' m',
             reserve_all_except_first_8kb example_layout 2 None true
               (set_ram_bounds 0x8049008 0x2008 initial_state) stale_mem
             = Some (true, st', m')) by (do 2 eexists; reflexivity).
  destruct H as (st' & m' & H). exists st', m'. split; [exact H |].
  destruct (reserve_decision_independent _ _ _ _ _ _ _ _ _ H 0%nat stale_mem)
    as (st2 & H2 & _).
  exists st2. exact H2.
Defined.

(** ** Cost of zeroing *)

(** A zeroing call from a state without a reservation returns exactly
    when the fuel reaches the number of words of the region it would
    commit, [(end - start) / 4]: the loop makes one iteration per word,
    no more and no fewer. *)
Theorem reserve_zeroing_cost L fuel sym st m :
  s_reserved st = false ->
  (reserve_all_except_first_8kb L fuel sym true st m = None
   <-> (fuel < enough_fuel sym st)%nat).
Proof.
  intros Hres. rewrite reserve_phases, Hres. unfold enough_fuel.
  destruct (usable_region _ _) as [r |] eqn:Hu.
  - apply usable_region_aligned in Hu as (Hs & He & H0 & Hlt & Hb).
    split.
    + intros H.
      destruct (Nat.lt_ge_cases fuel (words_between (start r) (end_ r)))
        as [Hf | Hf]; [exact Hf |].
      destruct (zero_loop_terminates L (end_ r) fuel He ltac:(lia)
                  (start r) (record_region st r) m Hs H0 Hf)
        as (st2 & m' & Hm').
      rewrite Hm' in H. discriminate.
    + intros Hf.
      rewrite (zero_loop_starved L (end_ r) fuel He ltac:(lia)
                 (start r) (record_region st r) m Hs H0 Hf). reflexivity.
  - split; [discriminate | intros H; inversion H].
Qed.

Lemma reserve_zeroing_cost_witness :
  s_reserved (set_ram_bounds 0x1000 (8192 + 16) initial_state) = false /\
  enough_fuel None (set_ram_bounds 0x1000 (8192 + 16) initial_state) = 4%nat /\
  reserve_all_except_first_8kb example_layout 3 None true
    (set_ram_bounds 0x1000 (8192 + 16) initial_state) stale_mem = None.
Proof.
  split; [reflexivity |]. split; [reflexivity |].
  apply (reserve_zeroing_cost example_layout 3 None
           (set_ram_bounds 0x1000 (8192 + 16) initial_state) stale_mem eq_refl).
  vm_compute. repeat constructor.
Defined.

(** ** What alignment costs *)

(** When neither the start nor the end wraps, and the call does not zero
    or its region contains none of the variables, alignment trims at most
    three bytes at each side of [[base + RESERVED_PREFIX, base + size)],
    and the length of the region is a multiple of 4. *)
Theorem alignment_trims_at_most_3 L fuel sym zero_memory st m st' m' :
  s_reserved st = false ->
  zero_memory = false \/ safe_to_zero L sym st = true ->
  reserve_all_except_first_8kb L fuel sym zero_memory st m
    = Some (true, st', m') ->
  0 <= fst (effective_bounds sym st) ->
  fst (effective_bounds sym st) + RESERVED_PREFIX <= Word.modulus - 4 ->
  fst (effective_bounds sym st) + snd (effective_bounds sym st)
    < Word.modulus ->
  start (get_usable_region st')
    - (fst (effective_bounds sym st) + RESERVED_PREFIX) <= 3 /\
  fst (effective_bounds sym st) + snd (effective_bounds sym st)
    - end_ (get_usable_region st') <= 3 /\
  fst (effective_bounds sym st) + RESERVED_PREFIX
    <= start (get_usable_region st') /\
  end_ (get_usable_region st')
    <= fst (effective_bounds sym st) + snd (effective_bounds sym st) /\
  (end_ (get_usable_region st') - start (get_usable_region st')) mod 4 = 0.
Proof.
  intros Hres Hsafe H Hb0 Hb Hbs.
  pose proof (reserve_outcome L fuel sym zero_memory st m true st' m' Hres H)
    as Ho.
  unfold safe_to_zero in Hsafe.
  destruct (usable_region _ _) as [r |] eqn:Hu; [| now destruct Ho].
  destruct Ho as [_ Hst]. rewrite (Hst Hsafe).
  unfold get_usable_region, get_reserved_region. cbn [commit s_reserved_region].
  set (b := fst (effective_bounds sym st)) in *.
  set (s := snd (effective_bounds sym st)) in *.
  pose proof (usable_region_aligned _ _ _ Hu) as (Hsm & Hem & _).
  apply usable_region_some in Hu as (Hs & Hst' & Hen & _).
  rewrite modulus_value in *. unfold RESERVED_PREFIX in *.
  assert (Hadd : Word.add b (8 * 1024) = b + 8 * 1024).
  { apply wrap_small. unfold Word.in_range. rewrite modulus_value. lia. }
  assert (Hadd' : Word.add b s = b + s).
  { apply wrap_small. unfold Word.in_range. rewrite modulus_value. lia. }
  pose proof (round_up_bounds (b + 8 * 1024)) as [Hup Hupm].
  pose proof (Z.div_mod (round_up (b + 8 * 1024)) 4 ltac:(lia)) as Hdm.
  assert (Hstart : start r = round_up (b + 8 * 1024)).
  { rewrite Hst', Hadd. apply wrap_small.
    unfold Word.in_range. rewrite modulus_value. lia. }
  pose proof (round_down_bounds (b + s)) as [Hdn _].
  rewrite Hadd' in Hen.
  split; [lia |]. split; [lia |]. split; [lia |]. split; [lia |].
  rewrite Zminus_mod, Hsm, Hem. reflexivity.
Qed.

Lemma alignment_trims_at_most_3_witness :
  reserve_all_except_first_8kb example_layout 0 None false
    (set_ram_bounds 0x1001 (8192 + 18) initial_state) stale_mem
  = Some (true,
          commit (set_ram_bounds 0x1001 (8192 + 18) initial_state)
            {| start := 0x3004; end_ := 0x3010 |},
          stale_mem) /\
  0x3004 - (0x1001 + RESERVED_PREFIX) <= 3 /\
  0x1001 + (8192 + 18) - 0x3010 <= 3.
Proof.
  assert (H : reserve_all_except_first_8kb example_layout 0 None false
                (set_ram_bounds 0x1001 (8192 + 18) initial_state) stale_mem
              = Some (true,
                      commit (set_ram_bounds 0x1001 (8192 + 18) initial_state)
                        {| start := 0x3004; end_ := 0x3010 |},
                      stale_mem)) by reflexivity.
  split; [exact H |].
  assert (Hres : s_reserved (set_ram_bounds 0x1001 (8192 + 18) initial_state)
                 = false) by reflexivity.
  destruct (alignment_trims_at_most_3 _ _ _ _ _ _ _ _ Hres (or_introl eq_refl) H)
    as (H1 & H2 & _).
  - vm_compute. congruence.
  - vm_compute. congruence.
  - reflexivity.
  - split; [exact H1 | exact H2].
Defined.

(** ** Which sizes succeed *)

(** For a word-aligned base whose RAM ends below [2^32] the boundary
    computation depends on the size alone. *)
Lemma usable_region_aligned_base b s :
  0 <= b -> b mod 4 = 0 -> b + s < Word.modulus ->
  usable_region b s =
    if s <? RESERVED_PREFIX + 4 then None
    else Some {| start := b + RESERVED_PREFIX; end_ := round_down (b + s) |}.
Proof.
  intros Hb0 Hbm Hbs. rewrite modulus_value in Hbs.
  unfold usable_region.
  destruct (Z.leb_spec s RESERVED_PREFIX) as [Hle | Hgt].
  - destruct (Z.ltb_spec s (RESERVED_PREFIX + 4)); [reflexivity | lia].
  - rewrite align_start_code by apply wrap_in_range.
    rewrite align_end_code by apply wrap_in_range.
    unfold RESERVED_PREFIX in *.
    assert (H1 : Word.add b (8 * 1024) = b + 8 * 1024).
    { apply wrap_small. unfold Word.in_range. rewrite modulus_value. lia. }
    assert (H2 : Word.add b s = b + s).
    { apply wrap_small. unfold Word.in_range. rewrite modulus_value. lia. }
    assert (H3 : (b + 8 * 1024) mod 4 = 0).
    { rewrite <- Z.add_mod_idemp_l, Hbm by lia. reflexivity. }
    rewrite H1, H2, round_up_aligned by assumption.
    rewrite wrap_small by (unfold Word.in_range; rewrite modulus_value; lia).
    pose proof (round_down_bounds (b + s)) as [Hd Hdm].
    pose proof (Z.div_mod (round_down (b + s)) 4 ltac:(lia)).
    pose proof (Z.div_mod (b + 8 * 1024) 4 ltac:(lia)).
    destruct (Z.ltb_spec s (8 * 1024 + 4)) as [Hlt | Hge];
      destruct (Z.leb_spec (round_down (b + s)) (b + 8 * 1024));
      try reflexivity; lia.
Qed.

(** With explicit bounds on a word-aligned base whose RAM ends below
    [2^32], the call fails exactly for the sizes below
    [RESERVED_PREFIX + 4] (so also for the three sizes just above the
    prefix, whose region is empty once aligned), and for every larger
    size it commits [[base + RESERVED_PREFIX, (base + size) rounded down)]. *)
Theorem reserve_aligned_base_threshold L fuel sym st m b s :
  s_reserved st = false ->
  Word.in_range b -> b mod 4 = 0 -> b + s < Word.modulus ->
  reserve_all_except_first_8kb L fuel sym false (set_ram_bounds b s st) m =
    if s <? RESERVED_PREFIX + 4
    then Some (false, set_ram_bounds b s st, m)
    else Some (true,
               commit (set_ram_bounds b s st)
                 {| start := b + RESERVED_PREFIX;
                    end_ := round_down (b + s) |},
               m).
Proof.
  intros Hres Hb Hbm Hbs. rewrite reserve_phases.
  rewrite effective_bounds_explicit by reflexivity.
  cbn [s_reserved set_ram_bounds fst snd s_ram_base s_ram_size].
  rewrite Hres, usable_region_aligned_base by (try apply Hb; assumption).
  now destruct (s <? RESERVED_PREFIX + 4).
Qed.

Lemma reserve_aligned_base_threshold_witness :
  s_reserved initial_state = false /\
  Word.in_range 0x1000 /\ 0x1000 mod 4 = 0 /\
  0x1000 + (RESERVED_PREFIX + 3) < Word.modulus /\
  reserve_all_except_first_8kb example_layout 0 None false
    (set_ram_bounds 0x1000 (RESERVED_PREFIX + 3) initial_state) stale_mem
  = Some (false, set_ram_bounds 0x1000 (RESERVED_PREFIX + 3) initial_state,
          stale_mem).
Proof.
  assert (Hb : Word.in_range 0x1000) by (vm_compute; split; congruence).
  split; [reflexivity |]. split; [exact Hb |]. split; [reflexivity |].
  split; [reflexivity |].
  apply (reserve_aligned_base_threshold example_layout 0 None initial_state stale_mem
           0x1000 (RESERVED_PREFIX + 3) eq_refl Hb eq_refl eq_refl).
Defined.

(** RAM that ends exactly at the top of the address space cannot be
    reserved: with [base + size = 2^32] the end wraps to 0 and the call
    returns [false], whatever the size. *)
Theorem reserve_fails_at_top_of_address_space L fuel sym zero_memory st m b s :
  s_reserved st = false ->
  b + s = Word.modulus ->
  reserve_all_except_first_8kb L fuel sym zero_memory (set_ram_bounds b s st) m
    = Some (false, set_ram_bounds b s st, m).
Proof.
  intros Hres Hbs. rewrite reserve_phases.
  rewrite effective_bounds_explicit by reflexivity.
  cbn [s_reserved set_ram_bounds fst snd s_ram_base s_ram_size].
  rewrite Hres.
  destruct (usable_region b s) as [r |] eqn:Hu; [| reflexivity].
  exfalso.
  pose proof (usable_region_aligned _ _ _ Hu) as (_ & _ & H0 & Hlt & _).
  apply usable_region_some in Hu as (_ & _ & Hen & _).
  unfold Word.add, Word.wrap in Hen. rewrite Hbs, Z.mod_same in Hen
    by (rewrite modulus_value; lia).
  unfold round_down in Hen. cbn in Hen. lia.
Qed.

Lemma reserve_fails_at_top_of_address_space_witness :
  s_reserved initial_state = false /\
  0xFF000000 + 0x1000000 = Word.modulus /\
  reserve_all_except_first_8kb example_layout 0 None true
    (set_ram_bounds 0xFF000000 0x1000000 initial_state) stale_mem
  = Some (false, set_ram_bounds 0xFF000000 0x1000000 initial_state, stale_mem).
Proof.
  split; [reflexivity |]. split; [reflexivity |].
  apply (reserve_fails_at_top_of_address_space example_layout 0 None true
           initial_state
           stale_mem 0xFF000000 0x1000000 eq_refl eq_refl).
Defined.

(** ** A marker inside the prefix *)

(** Without explicit bounds, a marker [a] above [DEFAULT_RAM_BASE] always
    decides: when it leaves less than [RESERVED_PREFIX + 4] bytes the
    call fails, and the compile-time size is not tried in its place;
    otherwise the call commits
    [[DEFAULT_RAM_BASE + RESERVED_PREFIX, a rounded down)]. *)
Theorem reserve_marker_threshold L fuel sym st m a :
  Reachable L sym st -> sym = Some a -> Word.in_range a ->
  s_explicit_bounds_set st = false -> s_reserved st = false ->
  DEFAULT_RAM_BASE < a ->
  reserve_all_except_first_8kb L fuel sym false st m =
    if a <? DEFAULT_RAM_BASE + RESERVED_PREFIX + 4
    then Some (false, st, m)
    else Some (true,
               commit st {| start := DEFAULT_RAM_BASE + RESERVED_PREFIX;
                            end_ := round_down a |},
               m).
Proof.
  intros Hreach -> Ha Hex Hres Hlt. apply reachable_inv in Hreach.
  rewrite reserve_phases, Hres.
  rewrite effective_bounds_default by assumption.
  cbn [compute_ram_end_from_linker].
  assert (Hne : (a =? 0) = false)
    by (apply Z.eqb_neq; unfold DEFAULT_RAM_BASE in Hlt; lia).
  rewrite Hne. apply Z.ltb_lt in Hlt as Hlt'. rewrite Hlt'. cbn [fst snd].
  rewrite usable_region_aligned_base.
  - replace (DEFAULT_RAM_BASE + (a - DEFAULT_RAM_BASE)) with a by lia.
    destruct (Z.ltb_spec (a - DEFAULT_RAM_BASE) (RESERVED_PREFIX + 4)),
             (Z.ltb_spec a (DEFAULT_RAM_BASE + RESERVED_PREFIX + 4));
      try reflexivity; lia.
  - unfold DEFAULT_RAM_BASE. lia.
  - reflexivity.
  - replace (DEFAULT_RAM_BASE + (a - DEFAULT_RAM_BASE)) with a by lia.
    apply Ha.
Qed.

Lemma reserve_marker_threshold_witness :
  Reachable example_layout (Some 0x3F801000) initial_state /\
  Word.in_range 0x3F801000 /\ DEFAULT_RAM_BASE < 0x3F801000 /\
  reserve_all_except_first_8kb example_layout 0 (Some 0x3F801000) false
    initial_state stale_mem
  = Some (false, initial_state, stale_mem) /\
  reserve_all_except_first_8kb example_layout 0 None false
    initial_state stale_mem
  = Some (true,
          commit initial_state
            {| start := DEFAULT_RAM_BASE + RESERVED_PREFIX;
               end_ := DEFAULT_RAM_BASE + DEFAULT_RAM_SIZE |},
          stale_mem).
Proof.
  assert (Hr : Reachable example_layout (Some 0x3F801000) initial_state)
    by apply steps_refl.
  assert (Ha : Word.in_range 0x3F801000) by (vm_compute; split; congruence).
  split; [exact Hr |]. split; [exact Ha |]. split; [reflexivity |].
  split; [| reflexivity].
  apply (reserve_marker_threshold example_layout 0 (Some 0x3F801000)
           initial_state stale_mem
           0x3F801000 Hr eq_refl Ha eq_refl eq_refl eq_refl).
Defined.
(** * The LCD driver *)

Import Mmio.
Import LCDDriver.

(** ** Traces and device values *)

Lemma count_ready_nonneg ins : 0 <= count_ready ins.
Proof.
  induction ins as [| v rest IH]; cbn [count_ready]; [lia |].
  destruct (ready v); lia.
Qed.

Lemma stores_store a v t ins ins' :
  stores {| trace := Store a v :: t; inputs := ins |}
  = stores {| trace := t; inputs := ins' |} ++ [(a, v)].
Proof. reflexivity. Qed.

Lemma stores_load a v t ins ins' :
  stores {| trace := Load a v :: t; inputs := ins |}
  = stores {| trace := t; inputs := ins' |}.
Proof. reflexivity. Qed.

(** ** The busy-wait *)

(** With more fuel than device values left, the wait returns at the first
    ready value, having made no store. *)
Lemma wait_transmission_fuel_spec ins :
  forall fuel t,
    (length ins < fuel)%nat ->
    (1 <= count_ready ins <->
     exists a w',
       wait_transmission_fuel fuel {| trace := t; inputs := ins |}
         = Some (a, w')) /\
    (forall a w',
       wait_transmission_fuel fuel {| trace := t; inputs := ins |}
         = Some (a, w') ->
       count_ready (inputs w') = count_ready ins - 1 /\
       stores w' = stores {| trace := t; inputs := ins |}).
Proof.
  induction ins as [| v rest IH]; intros fuel t Hf;
    (destruct fuel as [| fuel]; [cbn in Hf; lia |]).
  - cbn. split.
    + split; [lia | intros (a & w' & H); discriminate].
    + intros a w' H. discriminate.
  - cbn [wait_transmission_fuel bind volatile_load inputs trace count_ready].
    unfold ready. change (Z.shiftl 1 0) with 1.
    destruct (Z.land (Word.wrap v) 1 =? 0) eqn:Hr; cbn [negb].
    + pose proof (count_ready_nonneg rest). split.
      * split; [intros _; do 2 eexists; reflexivity | lia].
      * unfold ret. intros a w' [= _ <-]. cbn [inputs]. split; [lia |].
        reflexivity.
    + cbn in Hf.
      destruct (IH fuel (Load SPI_CMD_REG (Word.wrap v) :: t) ltac:(lia))
        as [Hiff Hpost].
      split.
      * rewrite <- Hiff. lia.
      * intros a w' H. destruct (Hpost a w' H) as [Hc Hs].
        split; [lia |]. rewrite Hs. reflexivity.
Qed.

Lemma Transfers_wait_transmission : Transfers wait_transmission 1 [].
Proof.
  intros [t ins]. unfold wait_transmission. cbn [inputs].
  destruct (wait_transmission_fuel_spec ins (S (length ins)) t ltac:(lia))
    as [Hiff Hpost].
  split; [exact Hiff |].
  intros a w' H. destruct (Hpost a w' H) as [Hc Hs].
  split; [exact Hc |]. rewrite Hs, app_nil_r. reflexivity.
Qed.

(** ** Composing transfers *)

Lemma Transfers_ret {A : Type} (a : A) : Transfers (ret a) 0 [].
Proof.
  intros w. pose proof (count_ready_nonneg (inputs w)). unfold ret. split.
  - split; [intros _; do 2 eexists; reflexivity | lia].
  - intros a' w' [= _ <-]. split; [lia |]. now rewrite app_nil_r.
Qed.

Lemma Transfers_store a v : Transfers (volatile_store a v) 0 [(a, v)].
Proof.
  intros [t ins]. pose proof (count_ready_nonneg ins).
  unfold volatile_store. cbn [trace inputs]. split.
  - split; [intros _; do 2 eexists; reflexivity | lia].
  - intros a' w' [= _ <-]. cbn [inputs]. split; [lia |]. reflexivity.
Qed.

Lemma Transfers_bind {A B : Type} (c1 : M A) (c2 : A -> M B) n1 n2 o1 o2 :
  0 <= n1 -> 0 <= n2 ->
  Transfers c1 n1 o1 -> (forall a, Transfers (c2 a) n2 o2) ->
  Transfers (bind c1 c2) (n1 + n2) (o1 ++ o2).
Proof.
  intros Hn1 Hn2 H1 H2 w. destruct (H1 w) as [Hiff1 Hpost1].
  unfold bind. split.
  - split.
    + intros Hle. destruct (proj1 Hiff1 ltac:(lia)) as (a1 & w1 & Hw1).
      rewrite Hw1. destruct (Hpost1 a1 w1 Hw1) as [Hc1 _].
      destruct (H2 a1 w1) as [Hiff2 _]. apply Hiff2. lia.
    + intros (b & w' & H).
      destruct (c1 w) as [[a1 w1] |] eqn:Hw1; [| discriminate].
      destruct (Hpost1 a1 w1 eq_refl) as [Hc1 _].
      destruct (H2 a1 w1) as [Hiff2 _].
      assert (n2 <= count_ready (inputs w1)) by (apply Hiff2; eauto).
      lia.
  - intros b w' H. destruct (c1 w) as [[a1 w1] |] eqn:Hw1; [| discriminate].
    destruct (Hpost1 a1 w1 eq_refl) as [Hc1 Hs1].
    destruct (H2 a1 w1) as [_ Hpost2]. destruct (Hpost2 b w' H) as [Hc2 Hs2].
    split; [lia |]. rewrite Hs2, Hs1, app_assoc. reflexivity.
Qed.

Lemma Transfers_for_from n out body :
  0 <= n ->
  (forall i, Transfers (body i) n out) ->
  forall k i,
    Transfers (for_from k i body) (Z.of_nat k * n) (concat (repeat out k)).
Proof.
  intros Hn Hbody k. induction k as [| k IH]; intros i.
  - cbn [for_from repeat concat]. apply Transfers_ret.
  - cbn [for_from repeat concat].
    replace (Z.of_nat (S k) * n) with (n + Z.of_nat k * n) by lia.
    apply Transfers_bind; [lia | nia | apply Hbody | intros _; apply IH].
Qed.

(** Equal programs make equal transfers. *)
Lemma Transfers_ext {A : Type} (c : M A) n n' out out' :
  n = n' -> out = out' -> Transfers c n out -> Transfers c n' out'.
Proof. now intros -> ->. Qed.

(** ** One SPI transfer *)

(** The exact run of the busy-wait: it polls through the busy values and
    stops on the first ready one. *)
Lemma wait_transmission_fuel_exact busy :
  forall fuel v rest t,
    Forall (fun b => ready b = false) busy -> ready v = true ->
    (length (busy ++ v :: rest) < fuel)%nat ->
    wait_transmission_fuel fuel {| trace := t; inputs := busy ++ v :: rest |}
    = Some (tt, {| trace := Load SPI_CMD_REG (Word.wrap v)
                            :: rev (map (fun b => Load SPI_CMD_REG (Word.wrap b))
                                      busy) ++ t;
                   inputs := rest |}).
Proof.
  induction busy as [| b busy IH]; intros fuel v rest t Hb Hv Hf;
    (destruct fuel as [| fuel]; [cbn in Hf; lia |]).
  - cbn [app wait_transmission_fuel bind volatile_load inputs trace map rev].
    unfold ready in Hv. change (Z.shiftl 1 0) with 1. rewrite Hv. reflexivity.
  - inversion Hb as [| b' busy' Hb1 Hb2]; subst.
    cbn [app wait_transmission_fuel bind volatile_load inputs trace map rev].
    unfold ready in Hb1. change (Z.shiftl 1 0) with 1. rewrite Hb1.
    cbn [negb]. cbn in Hf.
    rewrite (IH fuel v rest _ Hb2 Hv ltac:(lia)).
    rewrite <- app_assoc. reflexivity.
Qed.

(** [sendCommand] and [sendData] store the mode (0 or 1) in
    [SPI_CMD_REG], then the byte, reduced modulo 256, in [SPI_DATA_REG],
    then poll [SPI_CMD_REG] through every busy value up to and including
    the first value with bit 0 clear, and return; what the device would
    return after that value is left for later. *)
Theorem send_exact_trace byte busy v rest t :
  Forall (fun b => ready b = false) busy -> ready v = true ->
  sendCommand byte {| trace := t; inputs := busy ++ v :: rest |}
  = Some (tt, {| trace := Load SPI_CMD_REG (Word.wrap v)
                          :: rev (map (fun b => Load SPI_CMD_REG (Word.wrap b))
                                    busy)
                          ++ Store SPI_DATA_REG (byte mod 256)
                          :: Store SPI_CMD_REG 0 :: t;
                 inputs := rest |}) /\
  sendData byte {| trace := t; inputs := busy ++ v :: rest |}
  = Some (tt, {| trace := Load SPI_CMD_REG (Word.wrap v)
                          :: rev (map (fun b => Load SPI_CMD_REG (Word.wrap b))
                                    busy)
                          ++ Store SPI_DATA_REG (byte mod 256)
                          :: Store SPI_CMD_REG 1 :: t;
                 inputs := rest |}).
Proof.
  intros Hb Hv.
  split; unfold sendCommand, sendData, bind, volatile_store, wait_transmission;
    cbn [trace inputs];
    now rewrite (wait_transmission_fuel_exact busy _ v rest _ Hb Hv
                   (Nat.lt_succ_diag_r _)).
Qed.

Lemma send_exact_trace_witness :
  sendCommand 0x12A {| trace := []; inputs := [1; 3; 2; 1] |}
  = Some (tt, {| trace := [Load SPI_CMD_REG 2; Load SPI_CMD_REG 3;
                           Load SPI_CMD_REG 1; Store SPI_DATA_REG 0x2A;
                           Store SPI_CMD_REG 0];
                 inputs := [1] |}).
Proof.
  apply (send_exact_trace 0x12A [1; 3] 2 [1] []).
  - repeat constructor.
  - reflexivity.
Defined.

Lemma Transfers_sendCommand cmd :
  Transfers (sendCommand cmd) 1 (transfer 0 (cmd mod 256)).
Proof.
  unfold sendCommand, transfer.
  apply (Transfers_bind _ _ 0 1 [_] [_]);
    [lia | lia | apply Transfers_store | intros _].
  apply (Transfers_bind _ _ 0 1 [_] []);
    [lia | lia | apply Transfers_store | intros _].
  apply Transfers_wait_transmission.
Qed.

Lemma Transfers_sendData data :
  Transfers (sendData data) 1 (transfer 1 (data mod 256)).
Proof.
  unfold sendData, transfer.
  apply (Transfers_bind _ _ 0 1 [_] [_]);
    [lia | lia | apply Transfers_store | intros _].
  apply (Transfers_bind _ _ 0 1 [_] []);
    [lia | lia | apply Transfers_store | intros _].
  apply Transfers_wait_transmission.
Qed.

Lemma count_ready_all_busy ins :
  Forall (fun v => ready v = false) ins -> count_ready ins = 0.
Proof.
  induction 1 as [| v rest Hv _ IH]; cbn [count_ready]; [reflexivity |].
  rewrite Hv, IH. reflexivity.
Qed.

(** A program that makes at least one transfer does not return while the
    device only shows busy values. *)
Lemma Transfers_starved {A : Type} (c : M A) n out w :
  Transfers c n out -> count_ready (inputs w) < n -> c w = None.
Proof.
  intros H Hlt. destruct (H w) as [Hiff _].
  destruct (c w) as [[a w'] |] eqn:Hc; [| reflexivity].
  assert (n <= count_ready (inputs w)) by (apply Hiff; eauto). lia.
Qed.

(** There is no timeout: as long as every value the device returns has
    the busy bit set, however many there are, neither [sendCommand] nor
    [sendData] returns. *)
Theorem send_never_returns_while_busy byte w :
  Forall (fun v => ready v = false) (inputs w) ->
  sendCommand byte w = None /\ sendData byte w = None.
Proof.
  intros Hb. apply count_ready_all_busy in Hb. split.
  - apply (Transfers_starved _ _ _ _ (Transfers_sendCommand byte)). lia.
  - apply (Transfers_starved _ _ _ _ (Transfers_sendData byte)). lia.
Qed.

Lemma send_never_returns_while_busy_witness :
  Forall (fun v => ready v = false) [1; 3; 0xFFFFFFFF; 5] /\
  sendData 0x2A {| trace := []; inputs := [1; 3; 0xFFFFFFFF; 5] |} = None.
Proof.
  assert (H : Forall (fun v => ready v = false) [1; 3; 0xFFFFFFFF; 5])
    by (repeat constructor).
  split; [exact H |].
  apply (send_never_returns_while_busy 0x2A
           {| trace := []; inputs := [1; 3; 0xFFFFFFFF; 5] |} H).
Defined.

(** ** Pixels *)

Lemma byte_high x : Z.shiftr x 8 mod 256 = x / 256 mod 256.
Proof. rewrite Z.shiftr_div_pow2 by lia. reflexivity. Qed.

Lemma byte_low x : Z.land x 0xFF mod 256 = x mod 256.
Proof.
  change 0xFF with (Z.ones 8). rewrite Z.land_ones by lia.
  change (2 ^ 8) with 256. now rewrite Z.mod_mod by lia.
Qed.

Lemma uint16_high_byte c : (c mod 65536) / 256 mod 256 = c mod 65536 / 256.
Proof.
  apply Z.mod_small.
  pose proof (Z.mod_pos_bound c 65536 ltac:(lia)).
  split; [apply Z.div_pos; lia | apply Z.div_lt_upper_bound; lia].
Qed.

Lemma uint16_low_byte c : (c mod 65536) mod 256 = c mod 256.
Proof. apply Z.mod_mod_divide. exists 256. reflexivity. Qed.

(** [Transfers_bind] with the programs first, for goals whose counts are
    still to be found. *)
Lemma Transfers_seq {A B : Type} (c1 : M A) (c2 : M B) n1 n2 o1 o2 :
  Transfers c1 n1 o1 -> Transfers c2 n2 o2 ->
  0 <= n1 -> 0 <= n2 ->
  Transfers (c1 ;; c2) (n1 + n2) (o1 ++ o2).
Proof. intros. now apply Transfers_bind. Qed.

Ltac transfers :=
  first
    [ apply Transfers_sendCommand
    | apply Transfers_sendData
    | eapply Transfers_seq; [transfers | transfers | lia | lia] ].

Lemma Transfers_drawPixel x y color :
  Transfers (drawPixel x y color) 9 (pixel_stores x y color).
Proof.
  unfold drawPixel, CInt.to_uint16. cbv zeta. change (2 ^ 16) with 65536.
  eapply Transfers_ext; [ | | transfers].
  - reflexivity.
  - unfold pixel_stores.
    rewrite !byte_high, !byte_low, uint16_high_byte, uint16_low_byte.
    reflexivity.
Qed.

Lemma two_bytes x : 256 * (x / 256 mod 256) + x mod 256 = x mod 65536.
Proof.
  pose proof (Z.div_mod x 256 ltac:(lia)).
  pose proof (Z.div_mod (x / 256) 256 ltac:(lia)).
  pose proof (Z.mod_pos_bound x 256 ltac:(lia)).
  pose proof (Z.mod_pos_bound (x / 256) 256 ltac:(lia)).
  apply Z.mod_unique with (q := x / 256 / 256); lia.
Qed.

(** [drawPixel] makes nine transfers: command [0x2A] and the column,
    command [0x2B] and the row, command [0x2C] and the colour, each value
    as its high byte then its low byte.  Only the low 16 bits of [x] and
    [y] reach the device: the two bytes sent put together are
    [x mod 65536] and [y mod 65536]. *)
Theorem drawPixel_transfers x y color :
  Transfers (drawPixel x y color) 9
    (transfer 0 0x2A ++ transfer 1 (x / 256 mod 256) ++ transfer 1 (x mod 256) ++
     transfer 0 0x2B ++ transfer 1 (y / 256 mod 256) ++ transfer 1 (y mod 256) ++
     transfer 0 0x2C ++ transfer 1 (color mod 65536 / 256) ++
     transfer 1 (color mod 256)) /\
  256 * (x / 256 mod 256) + x mod 256 = x mod 65536 /\
  256 * (y / 256 mod 256) + y mod 256 = y mod 65536 /\
  256 * (color mod 65536 / 256) + color mod 256 = color mod 65536.
Proof.
  split; [apply Transfers_drawPixel |].
  split; [apply two_bytes |]. split; [apply two_bytes |].
  pose proof (two_bytes (color mod 65536)) as H.
  rewrite uint16_high_byte, uint16_low_byte, Z.mod_mod in H by lia.
  exact H.
Qed.

(** ** Clearing the screen *)

(** The transfers of [clearScreen], for use inside longer runs. *)
Lemma Transfers_clearScreen color :
  Transfers (clearScreen color) 153601
    (transfer 0 0x2C ++
     concat (repeat (transfer 1 (color mod 65536 / 256) ++
                     transfer 1 (color mod 256))
               (Z.to_nat 76800))).
Proof.
  unfold clearScreen, CInt.to_uint16, for_loop. cbv zeta.
  change (2 ^ 16) with 65536. change (240 * 320 - 0) with 76800.
  eapply Transfers_ext;
    [ | | eapply Transfers_seq;
          [apply Transfers_sendCommand
          | apply (Transfers_for_from 2) with
              (out := transfer 1 (color mod 65536 / 256) ++
                      transfer 1 (color mod 256));
            [lia |]
          | lia | lia ] ].
  - rewrite Z2Nat.id by lia. reflexivity.
  - reflexivity.
  - intros i. eapply Transfers_ext; [ | | transfers].
    + reflexivity.
    + now rewrite byte_high, byte_low, uint16_high_byte, uint16_low_byte.
Qed.

(** [clearScreen] sends command [0x2C] once and then, 76800 times, the
    high and the low byte of the colour: 153601 transfers, so it returns
    exactly when the device shows that many ready values. *)
Theorem clearScreen_transfers color :
  Transfers (clearScreen color) 153601
    (transfer 0 0x2C ++
     concat (repeat (transfer 1 (color mod 65536 / 256) ++
                     transfer 1 (color mod 256))
               (Z.to_nat 76800))).
Proof. exact (Transfers_clearScreen color). Qed.

(** ** Printing *)

Lemma to_int_low16 z : CInt.to_int z mod 65536 = z mod 65536.
Proof.
  unfold CInt.to_int. change (2 ^ 31) with (32768 * 65536).
  change (2 ^ 32) with 4294967296.
  rewrite Zminus_mod, Z.mod_mod_divide by (exists 65536; reflexivity).
  rewrite Z.mod_mul, Z.sub_0_r, Z.mod_mod by lia.
  rewrite Z.mod_add by lia. reflexivity.
Qed.

Lemma pixel_stores_low16 x x' y color :
  x mod 65536 = x' mod 65536 ->
  pixel_stores x y color = pixel_stores x' y color.
Proof.
  intros H. unfold pixel_stores.
  assert (Hlo : x mod 256 = x' mod 256).
  { rewrite <- (uint16_low_byte x), <- (uint16_low_byte x'). now rewrite H. }
  assert (Hhi : x / 256 mod 256 = x' / 256 mod 256).
  { pose proof (two_bytes x). pose proof (two_bytes x'). lia. }
  now rewrite Hlo, Hhi.
Qed.

Lemma Transfers_Print_loop cs tail x y color :
  Forall (fun c => c <> 0) cs ->
  forall offset k,
    offset mod 65536 = (8 * k) mod 65536 ->
    Transfers (Print_loop (cs ++ 0 :: tail) offset x y color)
      (9 * Z.of_nat (length cs))
      (concat (map (fun i => pixel_stores (x + 8 * (k + Z.of_nat i)) y color)
                 (seq 0 (length cs)))).
Proof.
  induction 1 as [| c cs Hc _ IH]; intros offset k Hoff.
  - cbn. apply Transfers_ret.
  - cbn [app Print_loop length seq map concat].
    apply Z.eqb_neq in Hc. rewrite Hc. cbn [negb].
    eapply Transfers_ext;
      [ | | eapply Transfers_seq;
            [apply Transfers_drawPixel
            | apply (IH (CInt.add offset 8) (k + 1))
            | lia | lia ] ].
    + lia.
    + f_equal.
      * apply pixel_stores_low16. unfold CInt.add.
        rewrite to_int_low16, Z.add_0_r.
        rewrite Z.add_mod, Hoff, <- Z.add_mod by lia. reflexivity.
      * rewrite <- seq_shift, map_map. f_equal.
        apply map_ext. intros i. f_equal. lia.
    + unfold CInt.add. rewrite to_int_low16.
      rewrite Z.add_mod, Hoff, <- Z.add_mod by lia. f_equal. lia.
Qed.

(** [Print] of a string of [n] non-zero bytes followed by a zero byte
    draws [n] pixels, the [i]-th at column [x + 8 * i] of row [y], and
    nothing else: the bytes themselves are not looked at beyond the test
    for zero, what follows the terminator is not read, and the empty
    string draws nothing. *)
Theorem Print_transfers cs tail x y color :
  Forall (fun c => c <> 0) cs ->
  Transfers (Print (cs ++ 0 :: tail) x y color)
    (9 * Z.of_nat (length cs))
    (concat (map (fun i => pixel_stores (x + 8 * Z.of_nat i) y color)
               (seq 0 (length cs)))).
Proof.
  intros H. unfold Print.
  exact (Transfers_Print_loop cs tail x y color H 0 0 eq_refl).
Qed.

Lemma Print_transfers_witness :
  Forall (fun c => c <> 0) [72; 105] /\
  Transfers (Print (CInt.c_str "Hi"%string) 0 16 0xFFFF) 18
    (pixel_stores 0 16 0xFFFF ++ pixel_stores 8 16 0xFFFF).
Proof.
  assert (H : Forall (fun c => c <> 0) [72; 105])
    by (repeat constructor; discriminate).
  split; [exact H |].
  apply (Transfers_ext _ _ _ _ _ eq_refl (app_assoc _ _ [])
           (Print_transfers [72; 105] [] 0 16 0xFFFF H)).
Defined.

(** ** Initialisation *)

Lemma Transfers_delay n : Transfers (delay n) 0 [].
Proof. apply Transfers_ret. Qed.

Ltac transfers ::=
  first
    [ apply Transfers_sendCommand
    | apply Transfers_sendData
    | apply Transfers_delay
    | eapply Transfers_seq; [transfers | transfers | lia | lia] ].

(** The mask [~(1 << 5)] clears bit 5 of a 32-bit value and keeps its
    other bits. *)
Lemma clear_bit5 v n :
  0 <= n ->
  Z.testbit (Word.and (Word.wrap v) (Word.not (Z.shiftl 1 5))) n
  = Z.testbit (Word.wrap v) n && negb (n =? 5).
Proof.
  intros Hn. unfold Word.and, Word.not, Word.wrap.
  rewrite Z.land_spec.
  change (Z.shiftl 1 5) with (2 ^ 5). rewrite modulus_value.
  change 4294967296 with (2 ^ 32).
  destruct (Z.ltb_spec n 32) as [Hlt | Hge].
  - f_equal.
    rewrite Z.mod_pow2_bits_low, Z.lnot_spec, Z.pow2_bits_eqb by lia.
    now rewrite Z.eqb_sym.
  - rewrite (Z.mod_pow2_bits_high v) by lia. reflexivity.
Qed.

Lemma set_bit5 v n :
  0 <= n ->
  Z.testbit (Z.lor (Word.wrap v) (Z.shiftl 1 5)) n
  = Z.testbit (Word.wrap v) n || (n =? 5).
Proof.
  intros Hn. rewrite Z.lor_spec. f_equal.
  change (Z.shiftl 1 5) with (2 ^ 5).
  rewrite Z.pow2_bits_eqb by lia. now rewrite Z.eqb_sym.
Qed.

(** [initialize] reads [GPIO_OUT_REG] and writes it back with bit 5 (the
    reset pin) cleared, reads it again and writes it back with bit 5
    set, each time keeping the other 31 bits of the value just read; it
    then sends the commands [0x01], [0x11], [0x29] in this order.  It
    returns exactly when the device, after the two GPIO values, shows
    three ready values. *)
Theorem initialize_behaviour g1 g2 rest t :
  (3 <= count_ready rest <->
   exists w',
     initialize {| trace := t; inputs := g1 :: g2 :: rest |} = Some (tt, w')) /\
  (forall w',
     initialize {| trace := t; inputs := g1 :: g2 :: rest |} = Some (tt, w') ->
     count_ready (inputs w') = count_ready rest - 3 /\
     stores w' =
       stores {| trace := t; inputs := g1 :: g2 :: rest |} ++
       [(GPIO_OUT_REG, Word.and (Word.wrap g1) (Word.not (Z.shiftl 1 5)));
        (GPIO_OUT_REG, Z.lor (Word.wrap g2) (Z.shiftl 1 5))] ++
       transfer 0 0x01 ++ transfer 0 0x11 ++ transfer 0 0x29) /\
  (forall n, 0 <= n ->
     Z.testbit (Word.and (Word.wrap g1) (Word.not (Z.shiftl 1 5))) n
       = Z.testbit (Word.wrap g1) n && negb (n =? 5) /\
     Z.testbit (Z.lor (Word.wrap g2) (Z.shiftl 1 5)) n
       = Z.testbit (Word.wrap g2) n || (n =? 5)).
Proof.
  set (w2 := {| trace :=
                  Store GPIO_OUT_REG (Z.lor (Word.wrap g2) (Z.shiftl 1 5))
                  :: Load GPIO_OUT_REG (Word.wrap g2)
                  :: Store GPIO_OUT_REG
                       (Word.and (Word.wrap g1) (Word.not (Z.shiftl 1 5)))
                  :: Load GPIO_OUT_REG (Word.wrap g1) :: t;
                inputs := rest |}).
  assert (Hrun : initialize {| trace := t; inputs := g1 :: g2 :: rest |}
                 = (sendCommand 0x01 ;; delay 120000 ;; sendCommand 0x11 ;;
                    delay 120000 ;; sendCommand 0x29) w2) by reflexivity.
  assert (HT : Transfers (sendCommand 0x01 ;; delay 120000 ;; sendCommand 0x11 ;;
                          delay 120000 ;; sendCommand 0x29) 3
                 (transfer 0 0x01 ++ transfer 0 0x11 ++ transfer 0 0x29)).
  { eapply Transfers_ext; [ | | transfers]; reflexivity. }
  destruct (HT w2) as [Hiff Hpost]. rewrite Hrun.
  change (inputs w2) with rest in Hiff, Hpost.
  split; [| split].
  - rewrite Hiff. split.
    + intros ([] & w' & H). eauto.
    + intros (w' & H). eauto.
  - intros w' H. destruct (Hpost tt w' H) as [Hc Hs].
    split; [exact Hc |]. rewrite Hs. unfold w2, stores. cbn [trace stores_rev rev].
    rewrite <- !app_assoc. reflexivity.
  - intros n Hn. split; [now apply clear_bit5 | now apply set_bit5].
Qed.

(** Before the device has delivered two values for [GPIO_OUT_REG],
    [initialize] cannot go on. *)
Lemma initialize_needs_two_reads t ins :
  (length ins < 2)%nat ->
  initialize {| trace := t; inputs := ins |} = None.
Proof.
  destruct ins as [| g1 [| g2 rest]]; cbn [length]; intros H;
    [reflexivity | reflexivity | lia].
Qed.

(** * The kernel entry point *)

Import Kernel.

(** ** The hexadecimal text of [a1] *)

(** The character the loop stores for the nibble at bit [sh]. *)
Lemma hex_digit_of_nibble a1 sh :
  0 <= sh ->
  let nibble := CInt.to_uint8 (Z.land (Z.shiftr a1 sh) 0xF) in
  let c := if nibble <? 10 then CInt.char "0"%char + nibble
           else CInt.char "A"%char + nibble - 10 in
  nibble = a1 / 2 ^ sh mod 16 /\
  is_hex_digit c = true /\
  hex_digit_value c = a1 / 2 ^ sh mod 16 /\
  c <> 0.
Proof.
  intros Hsh nibble c.
  assert (Hn : nibble = a1 / 2 ^ sh mod 16).
  { unfold nibble, CInt.to_uint8. change 0xF with (Z.ones 4).
    rewrite Z.land_ones, Z.shiftr_div_pow2 by lia.
    change (2 ^ 4) with 16. change (2 ^ 8) with 256.
    apply Z.mod_small.
    pose proof (Z.mod_pos_bound (a1 / 2 ^ sh) 16 ltac:(lia)). lia. }
  pose proof (Z.mod_pos_bound (a1 / 2 ^ sh) 16 ltac:(lia)) as Hb.
  rewrite <- Hn in *. clearbody nibble.
  split; [reflexivity |].
  unfold c, is_hex_digit, hex_digit_value.
  change (CInt.char "0"%char) with 48. change (CInt.char "9"%char) with 57.
  change (CInt.char "A"%char) with 65. change (CInt.char "F"%char) with 70.
  destruct (Z.ltb_spec nibble 10) as [Hlt | Hge].
  - replace (48 <=? 48 + nibble) with true by (symmetry; apply Z.leb_le; lia).
    replace (48 + nibble <=? 57) with true by (symmetry; apply Z.leb_le; lia).
    cbn [andb orb]. repeat split; lia.
  - replace (65 + nibble - 10 <=? 57) with false
      by (symmetry; apply Z.leb_gt; lia).
    replace (65 <=? 65 + nibble - 10) with true
      by (symmetry; apply Z.leb_le; lia).
    replace (65 + nibble - 10 <=? 70) with true
      by (symmetry; apply Z.leb_le; lia).
    rewrite andb_false_r. cbn [andb orb]. repeat split; lia.
Qed.

(** A 32-bit value is the sum of its eight nibbles. *)
Lemma nibbles_sum a :
  0 <= a < 2 ^ 32 ->
  16 * (16 * (16 * (16 * (16 * (16 * (16 * (16 * 0
    + a / 2 ^ 28 mod 16) + a / 2 ^ 24 mod 16) + a / 2 ^ 20 mod 16)
    + a / 2 ^ 16 mod 16) + a / 2 ^ 12 mod 16) + a / 2 ^ 8 mod 16)
    + a / 2 ^ 4 mod 16) + a / 2 ^ 0 mod 16 = a.
Proof.
  intros Ha.
  change (2 ^ 32) with 4294967296 in Ha.
  change (2 ^ 28) with 268435456. change (2 ^ 24) with 16777216.
  change (2 ^ 20) with 1048576. change (2 ^ 16) with 65536.
  change (2 ^ 12) with 4096. change (2 ^ 8) with 256.
  change (2 ^ 4) with 16. change (2 ^ 0) with 1.
  Z.to_euclidean_division_equations. lia.
Qed.

(** The buffer after the loop: ["0x"], eight digits, the terminator. *)
Lemma format_hex_digits a1 uninit :
  length uninit = 11%nat ->
  exists digits,
    format_hex a1 uninit
      = CInt.char "0"%char :: CInt.char "x"%char :: digits ++ [0] /\
    length digits = 8%nat /\
    forallb is_hex_digit digits = true /\
    Forall (fun c => c <> 0) digits /\
    hex_value digits
      = 16 * (16 * (16 * (16 * (16 * (16 * (16 * (16 * 0
          + a1 / 2 ^ 28 mod 16) + a1 / 2 ^ 24 mod 16) + a1 / 2 ^ 20 mod 16)
          + a1 / 2 ^ 16 mod 16) + a1 / 2 ^ 12 mod 16) + a1 / 2 ^ 8 mod 16)
          + a1 / 2 ^ 4 mod 16) + a1 / 2 ^ 0 mod 16.
Proof.
  intros Hlen.
  do 11 (destruct uninit as [| ? uninit]; [discriminate |]).
  destruct uninit; [| discriminate]. clear Hlen.
  pose (dg := fun sh =>
          let nibble := CInt.to_uint8 (Z.land (Z.shiftr a1 sh) 0xF) in
          if nibble <? 10 then CInt.char "0"%char + nibble
          else CInt.char "A"%char + nibble - 10).
  exists [dg 28; dg 24; dg 20; dg 16; dg 12; dg 8; dg 4; dg 0].
  match goal with
  | |- ?lhs = ?rhs /\ _ => assert (Hfmt : lhs = rhs) by reflexivity
  end.
  pose proof (hex_digit_of_nibble a1 28 ltac:(lia)) as (_ & H28 & V28 & N28).
  pose proof (hex_digit_of_nibble a1 24 ltac:(lia)) as (_ & H24 & V24 & N24).
  pose proof (hex_digit_of_nibble a1 20 ltac:(lia)) as (_ & H20 & V20 & N20).
  pose proof (hex_digit_of_nibble a1 16 ltac:(lia)) as (_ & H16 & V16 & N16).
  pose proof (hex_digit_of_nibble a1 12 ltac:(lia)) as (_ & H12 & V12 & N12).
  pose proof (hex_digit_of_nibble a1 8 ltac:(lia)) as (_ & H8 & V8 & N8).
  pose proof (hex_digit_of_nibble a1 4 ltac:(lia)) as (_ & H4 & V4 & N4).
  pose proof (hex_digit_of_nibble a1 0 ltac:(lia)) as (_ & H0 & V0 & N0).
  fold (dg 28) in H28, V28, N28. fold (dg 24) in H24, V24, N24.
  fold (dg 20) in H20, V20, N20. fold (dg 16) in H16, V16, N16.
  fold (dg 12) in H12, V12, N12. fold (dg 8) in H8, V8, N8.
  fold (dg 4) in H4, V4, N4. fold (dg 0) in H0, V0, N0.
  clearbody dg.
  split; [| split; [reflexivity | split; [| split]]].
  - exact Hfmt.
  - cbn [forallb]. rewrite H28, H24, H20, H16, H12, H8, H4, H0. reflexivity.
  - repeat constructor; assumption.
  - unfold hex_value. cbn [fold_left].
    rewrite V28, V24, V20, V16, V12, V8, V4, V0. reflexivity.
Qed.

(** The loop of [kernel_main] writes all 11 bytes of the buffer, whatever
    they held: ["0x"], eight upper-case hexadecimal digits, most
    significant first, and the terminator; read back as a hexadecimal
    number the eight digits are the 32-bit [a1_value]. *)
Theorem format_hex_roundtrip a1_value uninit :
  Word.in_range a1_value -> length uninit = 11%nat ->
  exists digits,
    format_hex a1_value uninit
      = CInt.char "0"%char :: CInt.char "x"%char :: digits ++ [0] /\
    length digits = 8%nat /\
    forallb is_hex_digit digits = true /\
    hex_value digits = a1_value.
Proof.
  intros Ha Hlen.
  destruct (format_hex_digits a1_value uninit Hlen)
    as (digits & Hfmt & Hl & Hh & _ & Hv).
  exists digits. repeat split; try assumption.
  rewrite Hv. apply nibbles_sum. exact Ha.
Qed.

Lemma format_hex_roundtrip_witness :
  Word.in_range 0xDEADBEEF /\
  format_hex 0xDEADBEEF (repeat 0xCC 11)
    = map CInt.char (String.list_ascii_of_string "0xDEADBEEF"%string) ++ [0].
Proof.
  assert (Ha : Word.in_range 0xDEADBEEF) by (vm_compute; split; congruence).
  split; [exact Ha |].
  destruct (format_hex_roundtrip 0xDEADBEEF (repeat 0xCC 11) Ha eq_refl)
    as (digits & Hfmt & _).
  rewrite Hfmt. revert Hfmt. vm_compute. intros [= <-]. reflexivity.
Defined.

(** ** What the kernel shows *)

Lemma Print_loop_ignores_characters cs cs' tail tail' x y color :
  Forall (fun c => c <> 0) cs -> Forall (fun c => c <> 0) cs' ->
  length cs = length cs' ->
  forall offset,
    Print_loop (cs ++ 0 :: tail) offset x y color
    = Print_loop (cs' ++ 0 :: tail') offset x y color.
Proof.
  intros H. revert cs'.
  induction H as [| c cs Hc _ IH]; intros cs' H' Hlen offset;
    destruct H' as [| c' cs' Hc' H']; try discriminate.
  - reflexivity.
  - cbn [app Print_loop].
    apply Z.eqb_neq in Hc, Hc'. rewrite Hc, Hc'. cbn [negb].
    rewrite (IH cs' H' ltac:(cbn in Hlen; lia)). reflexivity.
Qed.

Lemma bind_same_world {A B B' : Type} (c : M A) (k : A -> M B) (k' : A -> M B') w :
  (forall a w1, option_map snd (k a w1) = option_map snd (k' a w1)) ->
  option_map snd (bind c k w) = option_map snd (bind c k' w).
Proof.
  intros H. unfold bind. destruct (c w) as [[a w1] |]; [apply H | reflexivity].
Qed.

(** What [kernel_main] does to the device does not depend on the value
    of [a1]: for any two values (and any contents of the uninitialised
    buffer) the accesses made, loads and stores alike, and the device
    values used up are the same.  The digits are computed, but [Print]
    draws one pixel per character without looking at it. *)
Theorem kernel_main_display_ignores_a1 a1 a1' uninit uninit' w :
  length uninit = 11%nat -> length uninit' = 11%nat ->
  option_map snd (kernel_main a1 uninit w)
  = option_map snd (kernel_main a1' uninit' w).
Proof.
  intros Hu Hu'.
  destruct (format_hex_digits a1 uninit Hu) as (d & Hf & Hl & _ & Hn & _).
  destruct (format_hex_digits a1' uninit' Hu') as (d' & Hf' & Hl' & _ & Hn' & _).
  unfold kernel_main. cbv zeta.
  assert (HP : Print (format_hex a1 uninit) 0 48 0xFFFF
               = Print (format_hex a1' uninit') 0 48 0xFFFF).
  { rewrite Hf, Hf'. unfold Print.
    apply (Print_loop_ignores_characters
             (CInt.char "0"%char :: CInt.char "x"%char :: d)
             (CInt.char "0"%char :: CInt.char "x"%char :: d') [] []).
    - repeat constructor; try discriminate. exact Hn.
    - repeat constructor; try discriminate. exact Hn'.
    - cbn [length]. congruence. }
  rewrite HP.
  do 6 (apply bind_same_world; intros ? ?).
  reflexivity.
Qed.

Lemma kernel_main_display_ignores_a1_witness :
  length (repeat 0xCC 11) = 11%nat /\ length (repeat 0 11) = 11%nat /\
  option_map snd
    (kernel_main 0xDEADBEEF (repeat 0xCC 11) {| trace := []; inputs := [] |})
  = option_map snd
      (kernel_main 0 (repeat 0 11) {| trace := []; inputs := [] |}).
Proof.
  split; [reflexivity |]. split; [reflexivity |].
  apply (kernel_main_display_ignores_a1 0xDEADBEEF 0 (repeat 0xCC 11)
           (repeat 0 11) {| trace := []; inputs := [] |} eq_refl eq_refl).
Defined.

Lemma c_str_nonzero_13 :
  Forall (fun c => c <> 0)
    (map CInt.char (String.list_ascii_of_string "Hello, World!"%string)).
Proof. repeat constructor; discriminate. Qed.

Lemma c_str_nonzero_19 :
  Forall (fun c => c <> 0)
    (map CInt.char (String.list_ascii_of_string "Welcome to Micro32!"%string)).
Proof. repeat constructor; discriminate. Qed.

Lemma c_str_nonzero_12 :
  Forall (fun c => c <> 0)
    (map CInt.char (String.list_ascii_of_string "a1 register:"%string)).
Proof. repeat constructor; discriminate. Qed.

(** [kernel_main] reaches its final loop exactly when the device, after
    the two values read from [GPIO_OUT_REG], shows 154090 ready values:
    3 transfers to initialise, 153601 to clear the screen to colour 0,
    and 9 for each of the 13 + 19 + 12 + 10 characters printed.  Its
    stores are then the reset pulse, the three commands, the cleared
    screen, and for each line one white pixel per character, at columns
    0, 8, 16, ... of rows 0, 16, 32 and 48; the buffer it holds is the
    text of [a1_value]. *)
Theorem kernel_main_run a1_value uninit g1 g2 rest t :
  length uninit = 11%nat ->
  (154090 <= count_ready rest <->
   exists buf w',
     kernel_main a1_value uninit {| trace := t; inputs := g1 :: g2 :: rest |}
       = Some (buf, w')) /\
  (forall buf w',
     kernel_main a1_value uninit {| trace := t; inputs := g1 :: g2 :: rest |}
       = Some (buf, w') ->
     buf = format_hex a1_value uninit /\
     count_ready (inputs w') = count_ready rest - 154090 /\
     stores w' =
       stores {| trace := t; inputs := g1 :: g2 :: rest |} ++
       [(GPIO_OUT_REG, Word.and (Word.wrap g1) (Word.not (Z.shiftl 1 5)));
        (GPIO_OUT_REG, Z.lor (Word.wrap g2) (Z.shiftl 1 5))] ++
       (transfer 0 0x01 ++ transfer 0 0x11 ++ transfer 0 0x29) ++
       (transfer 0 0x2C ++
        concat (repeat (transfer 1 0 ++ transfer 1 0) (Z.to_nat 76800))) ++
       concat (map (fun i => pixel_stores (8 * Z.of_nat i) 0 0xFFFF)
                 (seq 0 13)) ++
       concat (map (fun i => pixel_stores (8 * Z.of_nat i) 16 0xFFFF)
                 (seq 0 19)) ++
       concat (map (fun i => pixel_stores (8 * Z.of_nat i) 32 0xFFFF)
                 (seq 0 12)) ++
       concat (map (fun i => pixel_stores (8 * Z.of_nat i) 48 0xFFFF)
                 (seq 0 10))).
Proof.
  intros Hu.
  destruct (format_hex_digits a1_value uninit Hu)
    as (d & Hf & Hl & _ & Hn & _).
  set (w2 := {| trace :=
                  Store GPIO_OUT_REG (Z.lor (Word.wrap g2) (Z.shiftl 1 5))
                  :: Load GPIO_OUT_REG (Word.wrap g2)
                  :: Store GPIO_OUT_REG
                       (Word.and (Word.wrap g1) (Word.not (Z.shiftl 1 5)))
                  :: Load GPIO_OUT_REG (Word.wrap g1) :: t;
                inputs := rest |}).
  set (buf0 := format_hex a1_value uninit) in *.
  set (prog :=
         (sendCommand 0x01 ;; delay 120000 ;; sendCommand 0x11 ;;
          delay 120000 ;; sendCommand 0x29) ;;
         clearScreen 0x0000 ;;
         Print (CInt.c_str "Hello, World!"%string) 0 0 0xFFFF ;;
         Print (CInt.c_str "Welcome to Micro32!"%string) 0 16 0xFFFF ;;
         Print (CInt.c_str "a1 register:"%string) 0 32 0xFFFF ;;
         Print buf0 0 48 0xFFFF ;;
         ret buf0).
  assert (Hrun : kernel_main a1_value uninit
                   {| trace := t; inputs := g1 :: g2 :: rest |}
                 = prog w2) by reflexivity.
  assert (HT : Transfers prog 154090
                 ((transfer 0 0x01 ++ transfer 0 0x11 ++ transfer 0 0x29) ++
                  (transfer 0 0x2C ++
                   concat (repeat (transfer 1 0 ++ transfer 1 0)
                             (Z.to_nat 76800))) ++
                  concat (map (fun i => pixel_stores (8 * Z.of_nat i) 0 0xFFFF)
                            (seq 0 13)) ++
                  concat (map (fun i => pixel_stores (8 * Z.of_nat i) 16 0xFFFF)
                            (seq 0 19)) ++
                  concat (map (fun i => pixel_stores (8 * Z.of_nat i) 32 0xFFFF)
                            (seq 0 12)) ++
                  concat (map (fun i => pixel_stores (8 * Z.of_nat i) 48 0xFFFF)
                            (seq 0 10)) ++ [])).
  { unfold prog.
    apply (Transfers_seq _ _ 3 154087);
      [eapply Transfers_ext; [ | | transfers]; reflexivity | | lia | lia].
    apply (Transfers_seq _ _ 153601 486);
      [apply (Transfers_clearScreen 0) | | lia | lia].
    apply (Transfers_seq _ _ 117 369);
      [apply (Transfers_Print_loop _ [] 0 0 0xFFFF c_str_nonzero_13 0 0 eq_refl) | | lia | lia].
    apply (Transfers_seq _ _ 171 198);
      [apply (Transfers_Print_loop _ [] 0 16 0xFFFF c_str_nonzero_19 0 0 eq_refl) | | lia | lia].
    apply (Transfers_seq _ _ 108 90);
      [apply (Transfers_Print_loop _ [] 0 32 0xFFFF c_str_nonzero_12 0 0 eq_refl) | | lia | lia].
    apply (Transfers_seq _ _ 90 0); [ | apply Transfers_ret | lia | lia].
    unfold buf0 in Hf. try unfold buf0. rewrite Hf.
    eapply Transfers_ext;
      [ | | refine (Transfers_Print_loop
                      (CInt.char "0"%char :: CInt.char "x"%char :: d) []
                      0 48 0xFFFF _ 0 0 eq_refl) ].
    - cbn [length]. rewrite Hl. reflexivity.
    - cbn [length]. rewrite Hl. reflexivity.
    - repeat constructor; try discriminate. exact Hn. }
  rewrite app_nil_r in HT.
  assert (Hw2 : stores w2
                = stores {| trace := t; inputs := g1 :: g2 :: rest |} ++
                  [(GPIO_OUT_REG,
                    Word.and (Word.wrap g1) (Word.not (Z.shiftl 1 5)));
                   (GPIO_OUT_REG, Z.lor (Word.wrap g2) (Z.shiftl 1 5))]).
  { unfold w2, stores. cbn [trace stores_rev rev].
    now rewrite <- app_assoc. }
  destruct (HT w2) as [Hiff Hpost]. rewrite Hrun.
  change (inputs w2) with rest in Hiff, Hpost.
  split; [exact Hiff |].
  intros buf w' H. destruct (Hpost buf w' H) as [Hc Hs].
  split; [| split; [exact Hc |]].
  - revert H. unfold prog. unfold bind.
    repeat match goal with
           | |- context [match ?c ?w with _ => _ end] =>
               destruct (c w) as [[? ?] |]; [| discriminate]
           end.
    unfold ret. now intros [= <- _].
  - rewrite Hs, Hw2, <- app_assoc. reflexivity.
Qed.

Lemma kernel_main_run_witness :
  length (repeat 0xCC 11) = 11%nat /\
  exists buf w',
    kernel_main 0xDEADBEEF (repeat 0xCC 11)
      {| trace := []; inputs := 0xFFFFFFDF :: 0 :: repeat 0 (Z.to_nat 154090) |}
    = Some (buf, w') /\
    buf = map CInt.char (String.list_ascii_of_string "0xDEADBEEF"%string) ++ [0].
Proof.
  split; [reflexivity |].
  destruct (kernel_main_run 0xDEADBEEF (repeat 0xCC 11) 0xFFFFFFDF 0
              (repeat 0 (Z.to_nat 154090)) [] eq_refl) as [Hiff Hpost].
  destruct (proj1 Hiff) as (buf & w' & H).
  - vm_compute. congruence.
  - exists buf, w'. split; [exact H |].
    destruct (Hpost buf w' H) as (-> & _). reflexivity.
Defined.
